(** * ColRadPy: the matrix-exponential solvers of
      [colradpy/solve_matrix_exponential.py]

    The three entry points [solve_matrix_exponential],
    [solve_matrix_exponential_steady_state] and
    [solve_matrix_exponential_source] are embedded over

    - an abstract number type [K] (NumPy's float64 / complex128 in exact
      arithmetic), with an instance for the real numbers;
    - n-dimensional arrays given by a shape and an index function;
    - an error monad for the Python exceptions the code can raise;
    - [numpy.linalg.eig] and [numpy.linalg.inv] as parameters of the
      development: they are NumPy's, not this repository's. *)

From Stdlib Require Import List Arith Lia Bool Ring Reals Lra.
Import ListNotations.

(** ** Python exceptions and the error monad *)

Inductive pyerror : Type :=
| IndexError
| ValueError
| UnboundLocalError
| LinAlgError.

Inductive result (A : Type) : Type :=
| Ok (a : A)
| Raise (e : pyerror).

Arguments Ok {A} a.
Arguments Raise {A} e.

Definition bind {A B : Type} (c : result A) (f : A -> result B) : result B :=
  match c with
  | Ok a => f a
  | Raise e => Raise e
  end.

Declare Scope py_scope.
Delimit Scope py_scope with py.
Notation "x <- c ;; k" := (bind c (fun x => k))
  (at level 61, c at next level, right associativity) : py_scope.
Notation "' pat <- c ;; k" := (bind c (fun x => match x with pat => k end))
  (at level 61, pat pattern, c at next level, right associativity) : py_scope.

(** ** Numbers

    The operations the source applies to array elements: [+], [-], [*],
    [/], [np.exp], the test [== 0] and the comparison of absolute values
    used by [np.abs(...).argsort]. *)

Class NumOps (K : Type) : Type := {
  kzero : K;
  kone : K;
  kadd : K -> K -> K;
  kmul : K -> K -> K;
  ksub : K -> K -> K;
  kopp : K -> K;
  kdiv : K -> K -> K;
  kexp : K -> K;
  is_zero : K -> bool;
  abs_leb : K -> K -> bool
}.

(** Exact arithmetic: a commutative ring without zero divisors in which
    [x / y = x * (1 / y)], [exp 0 = 1], [is_zero] decides equality with
    zero and [abs_leb] is a total preorder. *)
Class NumLaws (K : Type) {ops : NumOps K} : Prop := {
  num_ring : ring_theory kzero kone kadd kmul ksub kopp (@eq K);
  num_div : forall x y, kdiv x y = kmul x (kdiv kone y);
  num_integral : forall x y, kmul x y = kzero -> x = kzero \/ y = kzero;
  num_is_zero : forall x, is_zero x = true <-> x = kzero;
  num_exp0 : kexp kzero = kone;
  abs_leb_total : forall x y, abs_leb x y = true \/ abs_leb y x = true;
  abs_leb_trans : forall x y z,
      abs_leb x y = true -> abs_leb y z = true -> abs_leb x z = true
}.

(** ** Arrays *)

Record ndarray (A : Type) : Type := mk_nd {
  shape : list nat;
  data : list nat -> A
}.

Arguments mk_nd {A} shape data.
Arguments shape {A} n.
Arguments data {A} n idx.

Definition ndim {A : Type} (X : ndarray A) : nat := length (shape X).

(** Replace the entry at position [ax] of an index or shape. *)
Fixpoint set_nth (ax : nat) (v : nat) (l : list nat) : list nat :=
  match l, ax with
  | [], _ => []
  | _ :: r, 0 => v :: r
  | x :: r, S ax' => x :: set_nth ax' v r
  end.

(** Drop the entry at position [ax]. *)
Fixpoint drop_nth (ax : nat) (l : list nat) : list nat :=
  match l, ax with
  | [], _ => []
  | _ :: r, 0 => r
  | x :: r, S ax' => x :: drop_nth ax' r
  end.

(** Put [v] in front of position [ax]. *)
Fixpoint put_nth (ax : nat) (v : nat) (l : list nat) : list nat :=
  match ax, l with
  | 0, _ => v :: l
  | S ax', x :: r => x :: put_nth ax' v r
  | S _, [] => [v]
  end.

(** Position of [m] in the axis list [p]. *)
Fixpoint pos (m : nat) (p : list nat) : nat :=
  match p with
  | [] => 0
  | x :: r => if x =? m then 0 else S (pos m r)
  end.

(** [p] names each of the axes [0 .. n-1] once. *)
Definition is_axes (p : list nat) (n : nat) : bool :=
  (length p =? n) && forallb (fun m => existsb (Nat.eqb m) p) (seq 0 n).

(** [X.transpose(p)] once the axes are known to be valid:
    result axis [n] is source axis [p[n]]. *)
Definition transpose_raw {A : Type} (p : list nat) (X : ndarray A) : ndarray A :=
  mk_nd (map (fun ax => nth ax (shape X) 0) p)
        (fun idx => data X (map (fun m => nth (pos m p) idx 0) (seq 0 (length p)))).

(** [X.transpose(p)]; NumPy raises ValueError when the axes do not match. *)
Definition transpose {A : Type} (p : list nat) (X : ndarray A) : result (ndarray A) :=
  if is_axes p (ndim X) then Ok (transpose_raw p X) else Raise ValueError.

(** A one-dimensional array from a Python sequence. *)
Definition of_list {A : Type} (d : A) (l : list A) : ndarray A :=
  mk_nd [length l] (fun idx => nth (hd 0 idx) l d).

(** Elementwise application, as [np.exp(X)]. *)
Definition map_nd {A B : Type} (f : A -> B) (X : ndarray A) : ndarray B :=
  mk_nd (shape X) (fun idx => f (data X idx)).

(** [X[:,:,:,None]]: three full slices, then a new axis of length one. *)
Definition newaxis3 {A : Type} (X : ndarray A) : result (ndarray A) :=
  if ndim X <? 3 then Raise IndexError
  else Ok (mk_nd (firstn 3 (shape X) ++ 1 :: skipn 3 (shape X))
                 (fun idx => data X (firstn 3 idx ++ skipn 4 idx))).

(** *** Broadcasting *)

(** One dimension of a broadcast. *)
Definition bdim (d1 d2 : nat) : option nat :=
  if d1 =? d2 then Some d1
  else if d1 =? 1 then Some d2
  else if d2 =? 1 then Some d1
  else None.

(** Broadcast of two shapes given last axis first. *)
Fixpoint bshape_rev (s1 s2 : list nat) : option (list nat) :=
  match s1, s2 with
  | [], s => Some s
  | s, [] => Some s
  | d1 :: r1, d2 :: r2 =>
      match bdim d1 d2, bshape_rev r1 r2 with
      | Some d, Some r => Some (d :: r)
      | _, _ => None
      end
  end.

Definition broadcast_shape (s1 s2 : list nat) : option (list nat) :=
  option_map (@rev nat) (bshape_rev (rev s1) (rev s2)).

(** An axis of length one is read at index 0 whatever the result index. *)
Definition clamp (d i : nat) : nat := if d =? 1 then 0 else i.

Fixpoint clamp_all (sh idx : list nat) : list nat :=
  match sh, idx with
  | d :: sh', i :: idx' => clamp d i :: clamp_all sh' idx'
  | _, _ => []
  end.

(** The index into an operand of shape [sh] for the result index [idx]:
    shapes are aligned on their last axes. *)
Definition bidx (sh idx : list nat) : list nat :=
  clamp_all sh (skipn (length idx - length sh) idx).

(** Elementwise binary operation with broadcasting. *)
Definition broadcast2 {A : Type} (f : A -> A -> A) (X Y : ndarray A)
  : result (ndarray A) :=
  match broadcast_shape (shape X) (shape Y) with
  | Some sh =>
      Ok (mk_nd sh (fun idx => f (data X (bidx (shape X) idx))
                                 (data Y (bidx (shape Y) idx))))
  | None => Raise ValueError
  end.

(** *** Indexing *)

(** An integer index [i] on axis [ax] in an index of [nidx] entries, full
    slices on the other axes, as [X[:,:,0]] ([nidx = 3], [ax = 2]) and
    [X[:,:,0,:]] ([nidx = 4], [ax = 2]). *)
Definition select_axis {A : Type} (nidx ax i : nat) (X : ndarray A)
  : result (ndarray A) :=
  if (ndim X <? nidx) || (nth ax (shape X) 0 <=? i) then Raise IndexError
  else Ok (mk_nd (drop_nth ax (shape X)) (fun idx => data X (put_nth ax i idx))).

(** An integer array [js] on axis 2 after two full slices, as [X[:,:,js]]. *)
Definition take_axis2 {A : Type} (js : list nat) (X : ndarray A)
  : result (ndarray A) :=
  if (ndim X <? 3) || existsb (fun j => nth 2 (shape X) 0 <=? j) js
  then Raise IndexError
  else Ok (mk_nd (set_nth 2 (length js) (shape X))
                 (fun idx => data X (set_nth 2 (nth (nth 2 idx 0) js 0) idx))).

Fixpoint forallb2 (f : nat -> nat -> bool) (l1 l2 : list nat) : bool :=
  match l1, l2 with
  | x :: r1, y :: r2 => f x y && forallb2 f r1 r2
  | _, _ => true
  end.

(** [X[index]] for the list [index] the steady-state solver builds:
    [np.ix_] of the ranges of every axis of the eigenvalue array, with the
    entry at [axis] replaced by the argsort array [order] (which has the
    eigenvalue array's shape).  The list is read as a tuple of index
    arrays, as NumPy releases before 1.23 do; they broadcast to the shape
    of [order], and the remaining axes of [X] follow. *)
Definition fancy_ix {A : Type} (axis : nat) (order : ndarray nat) (X : ndarray A)
  : result (ndarray A) :=
  let n := ndim order in
  if (ndim X <? n) || negb (forallb2 Nat.leb (shape order) (shape X))
  then Raise IndexError
  else Ok (mk_nd (shape order ++ skipn n (shape X))
                 (fun idx => data X (set_nth axis (data order (firstn n idx))
                                             (firstn n idx) ++ skipn n idx))).

(** Every index of an array of shape [sh], in row-major order. *)
Fixpoint all_indices (sh : list nat) : list (list nat) :=
  match sh with
  | [] => [[]]
  | d :: r => flat_map (fun i => map (cons i) (all_indices r)) (seq 0 d)
  end.

(** [np.delete(X, obj, axis)] for an integer array [obj], given by the
    list of its values (of whatever shape: NumPy clears [keep[obj,]]).
    An index past the axis raises IndexError. *)
Definition np_delete {A : Type} (obj : list nat) (ax : nat) (X : ndarray A)
  : result (ndarray A) :=
  if ndim X <=? ax then Raise ValueError
  else
    let N := nth ax (shape X) 0 in
    if existsb (fun v => N <=? v) obj then Raise IndexError
    else
      let keep := filter (fun j => negb (existsb (Nat.eqb j) obj)) (seq 0 N) in
      Ok (mk_nd (set_nth ax (length keep) (shape X))
                (fun idx => data X (set_nth ax (nth (nth ax idx 0) keep 0) idx))).

(** Equality of shapes. *)
Fixpoint shape_eqb (s1 s2 : list nat) : bool :=
  match s1, s2 with
  | [], [] => true
  | x :: r1, y :: r2 => (x =? y) && shape_eqb r1 r2
  | _, _ => false
  end.

(** [np.insert]: the entry [r] of [indices] moves right by the number of
    entries sorted before it ([indices[order] += np.arange(numnew)] with a
    stable sort). *)
Definition insert_at (indices : list nat) (r : nat) : nat :=
  let x := nth r indices 0 in
  x + length (filter (fun r' => (nth r' indices 0 <? x)
                                || ((nth r' indices 0 =? x) && (r' <? r)))
                     (seq 0 (length indices))).

(** Where position [p] of the lengthened axis comes from: [inr r] is entry
    [r] of the inserted values, [inl q] is entry [q] of the old array. *)
Definition insert_src (indices : list nat) (p : nat) : nat + nat :=
  let rs := seq 0 (length indices) in
  match find (fun r => insert_at indices r =? p) rs with
  | Some r => inr r
  | None => inl (p - length (filter (fun r => insert_at indices r <? p) rs))
  end.

(** [np.insert(X, indices, V, axis)] for a one-dimensional integer array
    [indices]; [V] is broadcast to the slots it fills.  With a single
    index NumPy takes a separate path, which gives the same array when [V]
    has length one on [axis]. *)
Definition np_insert {A : Type} (indices : list nat) (V : ndarray A) (ax : nat)
           (X : ndarray A) : result (ndarray A) :=
  if ndim X <=? ax then Raise ValueError
  else
    let N := nth ax (shape X) 0 in
    if existsb (fun v => N <? v) indices then Raise IndexError
    else
      let slot := set_nth ax (length indices) (shape X) in
      match broadcast_shape (shape V) slot with
      | Some sh =>
          if shape_eqb sh slot
          then Ok (mk_nd (set_nth ax (N + length indices) (shape X))
                         (fun idx =>
                            match insert_src indices (nth ax idx 0) with
                            | inr r => data V (bidx (shape V) (set_nth ax r idx))
                            | inl q => data X (set_nth ax q idx)
                            end))
          else Raise ValueError
      | None => Raise ValueError
      end.

(** ** The solvers *)

Section Solvers.

Context {K : Type} {ops : NumOps K}.

Local Open Scope py_scope.

(** [numpy.linalg.eig] and [numpy.linalg.inv] on stacks of matrices. *)
Variable eig : ndarray K -> result (ndarray K * ndarray K).
Variable inv : ndarray K -> result (ndarray K).

(** Sum of [f 0 .. f (n-1)]. *)
Fixpoint ksum (n : nat) (f : nat -> K) : K :=
  match n with
  | 0 => kzero
  | S m => kadd (ksum m f) (f m)
  end.

(** [np.dot(X, v)] for a one-dimensional [v]: sum product over the last
    axis of [X]; a zero-dimensional [X] scales [v]. *)
Definition np_dot (X : ndarray K) (v : list K) : result (ndarray K) :=
  match rev (shape X) with
  | [] => Ok (mk_nd [length v] (fun idx => kmul (data X []) (nth (hd 0 idx) v kzero)))
  | n :: _ =>
      if n =? length v
      then Ok (mk_nd (removelast (shape X))
                     (fun idx => ksum n (fun j => kmul (data X (idx ++ [j]))
                                                       (nth j v kzero))))
      else Raise ValueError
  end.

(** [np.einsum('klij,kljt->itkl', X, Y)]. *)
Definition einsum_klij_kljt_itkl (X Y : ndarray K) : result (ndarray K) :=
  match shape X, shape Y with
  | [xk; xl; xi; xj], [yk; yl; yj; yt] =>
      match bdim xk yk, bdim xl yl, bdim xj yj with
      | Some dk, Some dl, Some dj =>
          Ok (mk_nd [xi; yt; dk; dl]
                (fun idx =>
                   let i := nth 0 idx 0 in
                   let t := nth 1 idx 0 in
                   let a := nth 2 idx 0 in
                   let b := nth 3 idx 0 in
                   ksum dj (fun j =>
                     kmul (data X [clamp xk a; clamp xl b; i; clamp xj j])
                          (data Y [clamp yk a; clamp yl b; clamp yj j; t]))))
      | _, _, _ => Raise ValueError
      end
  | _, _ => Raise ValueError
  end.

(** [np.einsum('kl,klj->klj', X, Y)]. *)
Definition einsum_kl_klj_klj (X Y : ndarray K) : result (ndarray K) :=
  match shape X, shape Y with
  | [xk; xl], [yk; yl; yj] =>
      match bdim xk yk, bdim xl yl with
      | Some dk, Some dl =>
          Ok (mk_nd [dk; dl; yj]
                (fun idx =>
                   let a := nth 0 idx 0 in
                   let b := nth 1 idx 0 in
                   let j := nth 2 idx 0 in
                   kmul (data X [clamp xk a; clamp xl b])
                        (data Y [clamp yk a; clamp yl b; j])))
      | _, _ => Raise ValueError
      end
  | _, _ => Raise ValueError
  end.

(** [np.einsum('k,kj->kj', X, Y)]. *)
Definition einsum_k_kj_kj (X Y : ndarray K) : result (ndarray K) :=
  match shape X, shape Y with
  | [xk], [yk; yj] =>
      match bdim xk yk with
      | Some dk =>
          Ok (mk_nd [dk; yj]
                (fun idx =>
                   let a := nth 0 idx 0 in
                   let j := nth 1 idx 0 in
                   kmul (data X [clamp xk a]) (data Y [clamp yk a; j])))
      | None => Raise ValueError
      end
  | _, _ => Raise ValueError
  end.

(** [np.where(X == 0)]: the indices of the exact zeros, in row-major
    order.  The tuple NumPy returns holds one coordinate array per axis;
    [coord c] is its entry [c]. *)
Definition np_where_zero (X : ndarray K) : list (list nat) :=
  filter (fun idx => is_zero (data X idx)) (all_indices (shape X)).

Definition coord (c : nat) (w : list (list nat)) : list nat :=
  map (fun idx => nth c idx 0) w.

(** Insertion into a list of indices sorted by absolute value of the key. *)
Fixpoint insert_by (key : nat -> K) (i : nat) (l : list nat) : list nat :=
  match l with
  | [] => [i]
  | j :: r => if abs_leb (key i) (key j) then i :: l else j :: insert_by key i r
  end.

(** The indices of [l] in ascending order of absolute value. *)
Definition argsort_list (l : list K) : list nat :=
  fold_right (insert_by (fun i => nth i l kzero)) [] (seq 0 (length l)).

(** [np.abs(X).argsort(ax)]. *)
Definition abs_argsort (ax : nat) (X : ndarray K) : result (ndarray nat) :=
  if ndim X <=? ax then Raise ValueError
  else Ok (mk_nd (shape X)
             (fun idx =>
                nth (nth ax idx 0)
                    (argsort_list (map (fun j => data X (set_nth ax j idx))
                                       (seq 0 (nth ax (shape X) 0))))
                    0)).

(** [solve_matrix_exponential(matrix, td_n0, td_t)]. *)
Definition solve_matrix_exponential (matrix : ndarray K) (td_n0 td_t : list K)
  : result (ndarray K * ndarray K * ndarray K) :=
  mt <- transpose [2; 3; 0; 1] matrix ;;
  '(eigenvals, eigenvectors) <- eig mt ;;
  iv <- inv eigenvectors ;;
  v0 <- np_dot iv td_n0 ;;
  v0n <- newaxis3 v0 ;;
  en <- newaxis3 eigenvals ;;
  et <- broadcast2 kmul en (of_list kzero td_t) ;;
  vt <- broadcast2 kmul v0n (map_nd kexp et) ;;
  td_pop <- einsum_klij_kljt_itkl eigenvectors vt ;;
  eigenvals' <- transpose [2; 0; 1] eigenvals ;;
  eigenvectors' <- transpose [2; 3; 0; 1] eigenvectors ;;
  Ok (td_pop, eigenvals', eigenvectors').

(** [td_n0 = np.zeros(np.shape(matrix)[0]); td_n0[0] = 1.] *)
Definition unit_n0 (matrix : ndarray K) : result (list K) :=
  match shape matrix with
  | [] => Raise IndexError
  | n :: _ => if n =? 0 then Raise IndexError
              else Ok (kone :: repeat kzero (n - 1))
  end.

(** [solve_matrix_exponential_steady_state(matrix)].  The names
    [eigenvals], [eigenvectors], [axis] and [ss_pop] are bound only inside
    the [if] branches: [None] is the unbound name. *)
Definition solve_matrix_exponential_steady_state (matrix : ndarray K)
  : result (ndarray K * ndarray K * ndarray K) :=
  td_n0 <- unit_n0 matrix ;;
  e4 <- (if ndim matrix =? 4
         then mt <- transpose [2; 3; 0; 1] matrix ;;
              r <- eig mt ;;
              Ok (Some (r, 2))
         else Ok None) ;;
  e3 <- (if ndim matrix =? 3
         then mt <- transpose [2; 0; 1] matrix ;;
              r <- eig mt ;;
              Ok (Some (r, 1))
         else Ok e4) ;;
  match e3 with
  | None => Raise UnboundLocalError
  | Some (eigenvals, eigenvectors, axis) =>
      iv <- inv eigenvectors ;;
      v0 <- np_dot iv td_n0 ;;
      order <- abs_argsort axis eigenvals ;;
      p4 <- (if ndim matrix =? 4
             then evT <- transpose [0; 1; 3; 2] eigenvectors ;;
                  ev <- fancy_ix axis order evT ;;
                  v0s <- fancy_ix axis order v0 ;;
                  v0m <- select_axis 3 2 0 v0s ;;
                  evm <- select_axis 4 2 0 ev ;;
                  p <- einsum_kl_klj_klj v0m evm ;;
                  ss <- transpose [2; 0; 1] p ;;
                  Ok (Some ss)
             else Ok None) ;;
      p3 <- (if ndim matrix =? 3
             then evT <- transpose [0; 2; 1] eigenvectors ;;
                  ev <- fancy_ix axis order evT ;;
                  v0s <- fancy_ix axis order v0 ;;
                  v0m <- select_axis 2 1 0 v0s ;;
                  evm <- select_axis 3 1 0 ev ;;
                  p <- einsum_k_kj_kj v0m evm ;;
                  ss <- transpose [1; 0] p ;;
                  Ok (Some ss)
             else Ok p4) ;;
      match p3 with
      | None => Raise UnboundLocalError
      | Some ss_pop => Ok (ss_pop, eigenvals, eigenvectors)
      end
  end.

(** Lines 118-132 of [solve_matrix_exponential_source]: the array [v] of
    time-evolved mode amplitudes, with the eigendecomposition. *)
Definition source_modes (matrix : ndarray K) (td_n0 source td_t : list K)
  : result (ndarray K * ndarray K * ndarray K) :=
  mt <- transpose [2; 3; 0; 1] matrix ;;
  '(eigenvals, eigenvectors) <- eig mt ;;
  iv <- inv eigenvectors ;;
  CC <- np_dot iv source ;;
  iv' <- inv eigenvectors ;;
  V0 <- np_dot iv' td_n0 ;;
  let eig_zero_ind := np_where_zero eigenvals in
  let obj := concat eig_zero_ind in
  eig_non_zero <- np_delete obj 2 eigenvals ;;
  dV0 <- np_delete obj 2 V0 ;;
  dCC <- np_delete obj 2 CC ;;
  q <- broadcast2 kdiv dCC eig_non_zero ;;
  amplitude_non <- broadcast2 kadd dV0 q ;;
  zi2 <- (if ndim eigenvals <? 3 then Raise IndexError
          else Ok (coord 2 eig_zero_ind)) ;;
  amplitude_zer <- take_axis2 zi2 V0 ;;
  an <- newaxis3 amplitude_non ;;
  en <- newaxis3 eig_non_zero ;;
  et <- broadcast2 kmul en (of_list kzero td_t) ;;
  lhs <- broadcast2 kmul an (map_nd kexp et) ;;
  dCC' <- np_delete obj 2 CC ;;
  cn <- newaxis3 dCC' ;;
  en' <- newaxis3 eig_non_zero ;;
  rhs <- broadcast2 kdiv cn en' ;;
  v_non <- broadcast2 ksub lhs rhs ;;
  cz <- take_axis2 zi2 CC ;;
  czn <- newaxis3 cz ;;
  czt <- broadcast2 kmul czn (of_list kzero td_t) ;;
  azn <- newaxis3 amplitude_zer ;;
  v_zer <- broadcast2 kadd czt azn ;;
  v <- np_insert zi2 v_zer 2 v_non ;;
  Ok (v, eigenvals, eigenvectors).

(** [solve_matrix_exponential_source(matrix, td_n0, source, td_t)]. *)
Definition solve_matrix_exponential_source
           (matrix : ndarray K) (td_n0 source td_t : list K)
  : result (ndarray K * ndarray K * ndarray K) :=
  '(v, eigenvals, eigenvectors) <- source_modes matrix td_n0 source td_t ;;
  td_pop <- einsum_klij_kljt_itkl eigenvectors v ;;
  Ok (td_pop, eigenvals, eigenvectors).

(** ** The contracts of the NumPy routines, and the formulas of the claims *)

(** [eig] succeeds on the stack [Mt] and returns eigenvalues of shape
    [bs ++ [S]] and eigenvectors of shape [bs ++ [S; S]], where [bs] is the
    list of the batch dimensions. *)
Definition eig_returns (Mt vals vecs : ndarray K) (bs : list nat) (S : nat) : Prop :=
  eig Mt = Ok (vals, vecs) /\
  shape vals = bs ++ [S] /\ shape vecs = bs ++ [S; S].

(** [inv] succeeds on the eigenvectors and returns an array of their shape. *)
Definition inv_returns (vecs W : ndarray K) (bs : list nat) (S : nat) : Prop :=
  inv vecs = Ok W /\ shape W = bs ++ [S; S].

(** Column [j] of [vecs] is an eigenvector of [Mt] for the eigenvalue [j],
    in every batch element. *)
Definition is_eigen (Mt vals vecs : ndarray K) (k l S : nat) : Prop :=
  forall a b i j, a < k -> b < l -> i < S -> j < S ->
    ksum S (fun m => kmul (data Mt [a; b; i; m]) (data vecs [a; b; m; j]))
    = kmul (data vecs [a; b; i; j]) (data vals [a; b; j]).

(** [W] is the inverse of [vecs] in every batch element. *)
Definition is_inverse (vecs W : ndarray K) (k l S : nat) : Prop :=
  forall a b i m, a < k -> b < l -> i < S -> m < S ->
    ksum S (fun j => kmul (data vecs [a; b; i; j]) (data W [a; b; j; m]))
    = if i =? m then kone else kzero.

(** Every column of every matrix of the batch sums to zero. *)
Definition columns_sum_to_zero (M : ndarray K) (k l S : nat) : Prop :=
  forall a b m, a < k -> b < l -> m < S ->
    ksum S (fun i => data M [i; m; a; b]) = kzero.

(** Entry [j] of [W . x] in the batch element [pre]: the projection of the
    vector [x] into the eigenbasis. *)
Definition project (W : ndarray K) (S : nat) (x : list K) (pre : list nat) (j : nat) : K :=
  ksum S (fun m => kmul (data W (pre ++ [j; m])) (nth m x kzero)).

(** The two branches of the source solver for one mode: projected initial
    amplitude [v0], projected source [cc], eigenvalue [lam], time [t]. *)
Definition mode_exp (v0 cc lam t : K) : K :=
  ksub (kmul (kadd v0 (kdiv cc lam)) (kexp (kmul lam t))) (kdiv cc lam).

Definition mode_lin (v0 cc t : K) : K :=
  kadd (kmul cc t) v0.

(** The modes [np.delete] keeps when given the coordinates [w] of the
    zeros. *)
Definition kept_modes (w : list (list nat)) (S : nat) : list nat :=
  filter (fun j => negb (existsb (Nat.eqb j) (concat w))) (seq 0 S).

(** Position [p] of the mode axis of [v], as the source solver fills it:
    from the coordinates [w] of the zeros of the whole eigenvalue array,
    without regard to the batch element [(a, b)] it is evaluated in. *)
Definition source_mode_value (w : list (list nat)) (vals W : ndarray K) (S : nat)
           (td_n0 source td_t : list K) (a b p t : nat) : K :=
  match insert_src (coord 2 w) p with
  | inr r =>
      let j := nth r (coord 2 w) 0 in
      mode_lin (project W S td_n0 [a; b] j) (project W S source [a; b] j)
               (nth t td_t kzero)
  | inl q =>
      let j := nth q (kept_modes w S) 0 in
      mode_exp (project W S td_n0 [a; b] j) (project W S source [a; b] j)
               (data vals [a; b; j]) (nth t td_t kzero)
  end.

(** Following the specification's words: mode [j] of batch element
    [(a, b)] is a zero mode when its own eigenvalue is exactly zero. *)
Definition spec_mode_value (vals W : ndarray K) (S : nat)
           (td_n0 source td_t : list K) (a b j t : nat) : K :=
  if is_zero (data vals [a; b; j])
  then mode_lin (project W S td_n0 [a; b] j) (project W S source [a; b] j)
                (nth t td_t kzero)
  else mode_exp (project W S td_n0 [a; b] j) (project W S source [a; b] j)
                (data vals [a; b; j]) (nth t td_t kzero).

(** The head of the list is smallest in absolute value. *)
Definition head_min (key : nat -> K) (l : list nat) : Prop :=
  forall x, In x l -> abs_leb (key (hd 0 l)) (key x) = true.

(** Row [pre] of the eigenvalue array: the eigenvalues of one batch
    element. *)
Definition eig_row (vals : ndarray K) (pre : list nat) (S : nat) : list K :=
  map (fun j => data vals (pre ++ [j])) (seq 0 S).

(** [pre] is the index of a batch element of a batch of dimensions [bs]. *)
Definition in_batch (pre bs : list nat) : Prop := Forall2 lt pre bs.

(** The axes that move the batch dimensions first:
    [(2,3,0,1)] for rank 4, [(2,0,1)] for rank 3. *)
Definition batch_first (bs : list nat) : list nat := seq 2 (length bs) ++ [0; 1].

(** Mode [j] is a zero mode of the batch: some batch element has an
    exactly-zero eigenvalue at index [j] ([w] is [np.where(eigenvals == 0)]
    over the whole array). *)
Definition is_zero_mode (w : list (list nat)) (j : nat) : bool :=
  existsb (Nat.eqb j) (coord 2 w).

(** The amplitude of mode [j] in batch element [(a, b)] when the partition
    into zero and non-zero modes is the batch-wide one. *)
Definition batch_mode_value (w : list (list nat)) (vals W : ndarray K) (S : nat)
           (td_n0 source td_t : list K) (a b j t : nat) : K :=
  if is_zero_mode w j
  then mode_lin (project W S td_n0 [a; b] j) (project W S source [a; b] j)
                (nth t td_t kzero)
  else mode_exp (project W S td_n0 [a; b] j) (project W S source [a; b] j)
                (data vals [a; b; j]) (nth t td_t kzero).

(** No exact zero, or a single one whose batch indices equal its mode
    index: the inputs on which [np.delete], handed all three coordinate
    arrays of [np.where], removes exactly the zero mode. *)
Definition clean_zeros (w : list (list nat)) : Prop :=
  w = [] \/ exists j, w = [[j; j; j]].

End Solvers.

Arguments bdim : simpl never.
Arguments clamp : simpl never.
Arguments shape_eqb : simpl never.

(** ** The real numbers as numbers *)

#[export] Instance R_ops : NumOps R := {|
  kzero := 0%R;
  kone := 1%R;
  kadd := Rplus;
  kmul := Rmult;
  ksub := Rminus;
  kopp := Ropp;
  kdiv := Rdiv;
  kexp := exp;
  is_zero := fun x => if Req_dec_T x 0 then true else false;
  abs_leb := fun x y => if Rle_dec (Rabs x) (Rabs y) then true else false
|}.

(** [numpy.linalg.eig] on a stack of diagonal matrices: the diagonals as
    eigenvalues, identity matrices as eigenvectors. *)
Definition eig_diag_vals {K : Type} (X : ndarray K) : ndarray K :=
  mk_nd (removelast (shape X)) (fun idx => data X (idx ++ [last idx 0])).

Definition eig_diag_vecs {K : Type} {ops : NumOps K} (X : ndarray K) : ndarray K :=
  mk_nd (shape X)
        (fun idx => match rev idx with
                    | j :: i :: _ => if i =? j then kone else kzero
                    | _ => kzero
                    end).

Definition eig_diag {K : Type} {ops : NumOps K} (X : ndarray K)
  : result (ndarray K * ndarray K) :=
  Ok (eig_diag_vals X, eig_diag_vecs X).

(** [numpy.linalg.inv] on a stack of identity matrices. *)
Definition inv_id {K : Type} (X : ndarray K) : result (ndarray K) := Ok X.

(** ** Concrete inputs over the real numbers *)

(** Two states, state 0 decaying into state 1, one batch element:
    the matrix [[-1, 0], [1, 0]], whose columns sum to zero. *)
Definition decay_matrix : ndarray R :=
  mk_nd [2; 2; 1; 1]
        (fun idx => match idx with
                    | [0; 0; _; _] => (-1)%R
                    | [1; 0; _; _] => 1%R
                    | _ => 0%R
                    end).

(** Its eigenvalues -1 and 0, the eigenvectors (1, -1) and (0, 1) as
    columns, and the inverse of the eigenvector matrix. *)
Definition decay_vals : ndarray R :=
  mk_nd [1; 1; 2]
        (fun idx => match idx with
                    | [_; _; 0] => (-1)%R
                    | _ => 0%R
                    end).

Definition decay_vecs : ndarray R :=
  mk_nd [1; 1; 2; 2]
        (fun idx => match idx with
                    | [_; _; 0; 0] => 1%R
                    | [_; _; 1; 0] => (-1)%R
                    | [_; _; 1; 1] => 1%R
                    | _ => 0%R
                    end).

Definition decay_inv_vecs : ndarray R :=
  mk_nd [1; 1; 2; 2]
        (fun idx => match idx with
                    | [_; _; 0; 0] => 1%R
                    | [_; _; 1; 0] => 1%R
                    | [_; _; 1; 1] => 1%R
                    | _ => 0%R
                    end).

Definition decay_eig (X : ndarray R) : result (ndarray R * ndarray R) :=
  Ok (decay_vals, decay_vecs).

Definition decay_inv (X : ndarray R) : result (ndarray R) :=
  Ok decay_inv_vecs.

(** The diagonal matrix [diag(x, y)] as a batch of one, of rank 4 and of
    rank 3. *)
Definition diag2 (x y : R) : ndarray R :=
  mk_nd [2; 2; 1; 1]
        (fun idx => match idx with
                    | [0; 0; _; _] => x
                    | [1; 1; _; _] => y
                    | _ => 0%R
                    end).

Definition diag2_rank3 (x y : R) : ndarray R :=
  mk_nd [2; 2; 1]
        (fun idx => match idx with
                    | [0; 0; _] => x
                    | [1; 1; _] => y
                    | _ => 0%R
                    end).

(** A 2 x 2 batch of diagonal matrices: [diag(-1, 0)] in the batch element
    (1, 1) and [diag(-1, -2)] in the three others. *)
Definition mixed_batch : ndarray R :=
  mk_nd [2; 2; 2; 2]
        (fun idx => match idx with
                    | [0; 0; _; _] => (-1)%R
                    | [1; 1; 1; 1] => 0%R
                    | [1; 1; _; _] => (-2)%R
                    | _ => 0%R
                    end).

(** Two batch elements of one state each: shape [1, 1, 2, 1], every
    entry -1. *)
Definition one_state_batch : ndarray R :=
  mk_nd [1; 1; 2; 1] (fun _ => (-1)%R).

(** A single 2 x 2 matrix, without batch dimensions. *)
Definition plain_matrix : ndarray R :=
  mk_nd [2; 2] (fun _ => 0%R).

(** ** Further contracts and inputs *)

Section MoreContracts.

Context {K : Type} {ops : NumOps K}.

(** [W . vecs] is the identity in every batch element: with [is_inverse],
    [W] is the two-sided inverse [numpy.linalg.inv] computes. *)
Definition is_left_inverse (vecs W : ndarray K) (k l S : nat) : Prop :=
  forall a b j m, a < k -> b < l -> j < S -> m < S ->
    ksum S (fun i => kmul (data W [a; b; j; i]) (data vecs [a; b; i; m]))
    = if j =? m then kone else kzero.

(** Column [pre] of a population array of shape [S, k, l] as a Python
    sequence: the vector handed back as an initial population. *)
Definition state_vector (X : ndarray K) (pre : list nat) (S : nat) : list K :=
  map (fun i => data X (i :: pre)) (seq 0 S).

End MoreContracts.

(** A batch without states: shape [0, 0, 1]. *)
Definition no_state_batch : ndarray R :=
  mk_nd [0; 0; 1] (fun _ => 0%R).

(** [numpy.linalg.inv] on a singular matrix. *)
Definition inv_singular (X : ndarray R) : result (ndarray R) :=
  Raise LinAlgError.

(* ================================================================= *)
(** * Properties *)

Section Theory.

Context {K : Type} {ops : NumOps K} {laws : NumLaws K}.
Variable eig : ndarray K -> result (ndarray K * ndarray K).
Variable inv : ndarray K -> result (ndarray K).

Add Ring Kring : (@num_ring K ops laws).

(** *** Broadcasting and clamping *)

Lemma bdim_refl d : bdim d d = Some d.
Proof. unfold bdim. now rewrite Nat.eqb_refl. Qed.

Lemma bdim_1_l d : bdim 1 d = Some d.
Proof.
  unfold bdim. destruct (1 =? d) eqn:E; [|reflexivity].
  apply Nat.eqb_eq in E. now subst.
Qed.

Lemma bdim_1_r d : bdim d 1 = Some d.
Proof. unfold bdim. destruct (d =? 1) eqn:E; reflexivity. Qed.

Lemma shape_eqb_refl s : shape_eqb s s = true.
Proof.
  induction s as [|x r IH]; [reflexivity|].
  change (shape_eqb (x :: r) (x :: r)) with ((x =? x) && shape_eqb r r).
  now rewrite Nat.eqb_refl, IH.
Qed.

Lemma clamp_lt d i : i < d -> clamp d i = i.
Proof.
  unfold clamp. destruct (d =? 1) eqn:E; [|reflexivity].
  apply Nat.eqb_eq in E. lia.
Qed.

Lemma clamp_idem d i : clamp d (clamp d i) = clamp d i.
Proof. unfold clamp. destruct (d =? 1); reflexivity. Qed.

(** *** Finite sums *)

Lemma ksum_ext n f g :
  (forall j, j < n -> f j = g j) -> ksum n f = ksum n g.
Proof.
  induction n as [|n IH]; intros E; simpl; [reflexivity|].
  rewrite IH by (intros; apply E; lia). now rewrite E by lia.
Qed.

Lemma ksum_zero n : ksum n (fun _ => kzero) = kzero.
Proof. induction n as [|n IH]; simpl; [reflexivity|]. rewrite IH. ring. Qed.

Lemma ksum_add n f g :
  ksum n (fun j => kadd (f j) (g j)) = kadd (ksum n f) (ksum n g).
Proof. induction n as [|n IH]; simpl; [ring|]. rewrite IH. ring. Qed.

Lemma ksum_mul_l n c f :
  ksum n (fun j => kmul c (f j)) = kmul c (ksum n f).
Proof. induction n as [|n IH]; simpl; [ring|]. rewrite IH. ring. Qed.

Lemma ksum_mul_r n c f :
  ksum n (fun j => kmul (f j) c) = kmul (ksum n f) c.
Proof. induction n as [|n IH]; simpl; [ring|]. rewrite IH. ring. Qed.

Lemma ksum_swap n m (f : nat -> nat -> K) :
  ksum n (fun i => ksum m (fun j => f i j))
  = ksum m (fun j => ksum n (fun i => f i j)).
Proof.
  induction n as [|n IH]; simpl.
  - now rewrite ksum_zero.
  - rewrite IH, <- ksum_add. reflexivity.
Qed.

(** A sum against the Kronecker delta picks one term. *)
Lemma ksum_delta n i f :
  i < n ->
  ksum n (fun m => kmul (if i =? m then kone else kzero) (f m)) = f i.
Proof.
  induction n as [|n IH]; intros Hi; [lia|]. simpl.
  destruct (Nat.eq_dec i n) as [->|Hne].
  - rewrite Nat.eqb_refl.
    rewrite (ksum_ext n _ (fun _ => kzero)).
    + rewrite ksum_zero. ring.
    + intros j Hj. replace (n =? j) with false; [ring|].
      symmetry. apply Nat.eqb_neq. lia.
  - rewrite IH by lia. replace (i =? n) with false; [ring|].
    symmetry. now apply Nat.eqb_neq.
Qed.

(** *** The time-dependent solver *)

Ltac bcast :=
  unfold broadcast2, broadcast_shape; simpl;
  rewrite ?bdim_refl, ?bdim_1_l, ?bdim_1_r; simpl.

Ltac unclamp :=
  rewrite ?clamp_idem; rewrite ?clamp_lt by assumption.

Lemma time_dependent_run (M : ndarray K) (n0 tt : list K) {S k l : nat}
      {vals vecs W : ndarray K} :
  shape M = [S; S; k; l] ->
  length n0 = S ->
  eig_returns eig (transpose_raw [2; 3; 0; 1] M) vals vecs [k; l] S ->
  inv_returns inv vecs W [k; l] S ->
  exists pop,
    solve_matrix_exponential eig inv M n0 tt
    = Ok (pop, transpose_raw [2; 0; 1] vals, transpose_raw [2; 3; 0; 1] vecs)
    /\ shape pop = [S; length tt; k; l]
    /\ forall i t a b, i < S -> t < length tt -> a < k -> b < l ->
         data pop [i; t; a; b]
         = ksum S (fun j =>
             kmul (data vecs [a; b; i; j])
                  (kmul (project W S n0 [a; b] j)
                        (kexp (kmul (data vals [a; b; j]) (nth t tt kzero))))).
Proof.
  intros HM Hn (Heig & Hvals & Hvecs) (Hinv & HW). simpl in Hvals, Hvecs, HW.
  unfold solve_matrix_exponential, transpose, ndim.
  rewrite HM. simpl. rewrite Heig. simpl. rewrite Hinv. simpl.
  unfold np_dot. rewrite HW. simpl. rewrite Hn, Nat.eqb_refl. simpl.
  unfold newaxis3, ndim. simpl. rewrite Hvals. simpl.
  bcast. bcast.
  unfold einsum_klij_kljt_itkl. rewrite Hvecs. simpl.
  rewrite !bdim_refl. simpl. rewrite ?Hvals, ?Hvecs. simpl.
  eexists. split; [reflexivity|]. split; [reflexivity|].
  intros i t a b Hi Ht Ha Hb. simpl.
  apply ksum_ext. intros j Hj. unclamp.
  reflexivity.
Qed.

(** Reconstruction undoes the projection: [V . (W . x) = x] when [W] is
    the inverse of [V]. *)
Lemma reconstruct_projection {vecs W : ndarray K} (x : list K) {S k l a b i : nat} :
  is_inverse vecs W k l S ->
  a < k -> b < l -> i < S ->
  ksum S (fun j => kmul (data vecs [a; b; i; j]) (project W S x [a; b] j))
  = nth i x kzero.
Proof.
  intros HI Ha Hb Hi. unfold project. simpl.
  rewrite (ksum_ext S _
             (fun j => ksum S (fun m =>
                kmul (kmul (data vecs [a; b; i; j]) (data W [a; b; j; m]))
                     (nth m x kzero)))).
  2:{ intros j _. rewrite <- ksum_mul_l. apply ksum_ext. intros m _. ring. }
  rewrite ksum_swap.
  rewrite (ksum_ext S _
             (fun m => kmul (if i =? m then kone else kzero) (nth m x kzero))).
  2:{ intros m Hm. rewrite ksum_mul_r. now rewrite HI. }
  now apply ksum_delta.
Qed.

(** C1. Time-dependent solver postcondition: on a diagonalizable batch of
    shape [S,S,k,l], an initial vector of length S and a time grid of
    length T, [solve_matrix_exponential] returns [td_pop] of shape
    [S,T,k,l] with
    [td_pop[i,t,a,b] = sum_j eigenvectors[a,b,i,j]
                       * ((eigenvectors[a,b]^-1 . td_n0)[j]
                          * exp(eigenvals[a,b,j] * td_t[t]))]. *)
Theorem time_dependent_postcondition
        (M : ndarray K) (td_n0 td_t : list K) (S k l : nat)
        (vals vecs W : ndarray K) :
  shape M = [S; S; k; l] ->
  length td_n0 = S ->
  eig_returns eig (transpose_raw [2; 3; 0; 1] M) vals vecs [k; l] S ->
  inv_returns inv vecs W [k; l] S ->
  exists td_pop eigenvals eigenvectors,
    solve_matrix_exponential eig inv M td_n0 td_t
    = Ok (td_pop, eigenvals, eigenvectors)
    /\ shape td_pop = [S; length td_t; k; l]
    /\ forall i t a b, i < S -> t < length td_t -> a < k -> b < l ->
         data td_pop [i; t; a; b]
         = ksum S (fun j =>
             kmul (data vecs [a; b; i; j])
                  (kmul (project W S td_n0 [a; b] j)
                        (kexp (kmul (data vals [a; b; j]) (nth t td_t kzero))))).
Proof.
  intros HM Hn He Hi.
  destruct (time_dependent_run M td_n0 td_t HM Hn He Hi) as (pop & Hrun & Hsh & Hd).
  exists pop, (transpose_raw [2; 0; 1] vals), (transpose_raw [2; 3; 0; 1] vecs).
  auto.
Qed.

(** C2. Initial-condition recovery: when the time grid holds the value 0
    at position [t], the population returned at that time is [td_n0], in
    every batch element (exact arithmetic). *)
Theorem initial_condition_recovery
        (M : ndarray K) (td_n0 td_t : list K) (S k l : nat)
        (vals vecs W : ndarray K) (t : nat) :
  shape M = [S; S; k; l] ->
  length td_n0 = S ->
  eig_returns eig (transpose_raw [2; 3; 0; 1] M) vals vecs [k; l] S ->
  inv_returns inv vecs W [k; l] S ->
  is_inverse vecs W k l S ->
  t < length td_t ->
  nth t td_t kzero = kzero ->
  exists td_pop eigenvals eigenvectors,
    solve_matrix_exponential eig inv M td_n0 td_t
    = Ok (td_pop, eigenvals, eigenvectors)
    /\ forall i a b, i < S -> a < k -> b < l ->
         data td_pop [i; t; a; b] = nth i td_n0 kzero.
Proof.
  intros HM Hn He Hi HI Ht Ht0.
  destruct (time_dependent_run M td_n0 td_t HM Hn He Hi) as (pop & Hrun & Hsh & Hd).
  exists pop, (transpose_raw [2; 0; 1] vals), (transpose_raw [2; 3; 0; 1] vecs).
  split; [exact Hrun|].
  intros i a b Hi' Ha Hb. rewrite Hd by assumption.
  rewrite <- (reconstruct_projection td_n0 HI Ha Hb Hi').
  apply ksum_ext. intros j _. rewrite Ht0.
  replace (kmul (data vals [a; b; j]) kzero) with kzero by ring.
  rewrite num_exp0. ring.
Qed.

(** A column of eigenvectors either sums to zero or belongs to the
    eigenvalue zero, when the columns of the matrix sum to zero. *)
Lemma eigen_column_sum {M vals vecs : ndarray K} {S k l a b j : nat} :
  columns_sum_to_zero M k l S ->
  is_eigen (transpose_raw [2; 3; 0; 1] M) vals vecs k l S ->
  a < k -> b < l -> j < S ->
  ksum S (fun i => data vecs [a; b; i; j]) = kzero
  \/ data vals [a; b; j] = kzero.
Proof.
  intros HC HE Ha Hb Hj. apply num_integral.
  rewrite <- ksum_mul_r.
  rewrite (ksum_ext S _
             (fun i => ksum S (fun m =>
                kmul (data M [i; m; a; b]) (data vecs [a; b; m; j])))).
  2:{ intros i Hi. now rewrite <- (HE a b i j). }
  rewrite ksum_swap.
  rewrite (ksum_ext S _ (fun _ => kzero)); [apply ksum_zero|].
  intros m Hm. rewrite ksum_mul_r, HC by assumption. ring.
Qed.

(** C8. Population conservation: when every column of every matrix of the
    batch sums to zero, the populations returned by the time-dependent
    solver sum, at every requested time and in every batch element, to
    the sum of the initial vector (exact arithmetic). *)
Theorem population_conservation
        (M : ndarray K) (td_n0 td_t : list K) (S k l : nat)
        (vals vecs W : ndarray K) :
  shape M = [S; S; k; l] ->
  length td_n0 = S ->
  eig_returns eig (transpose_raw [2; 3; 0; 1] M) vals vecs [k; l] S ->
  inv_returns inv vecs W [k; l] S ->
  is_eigen (transpose_raw [2; 3; 0; 1] M) vals vecs k l S ->
  is_inverse vecs W k l S ->
  columns_sum_to_zero M k l S ->
  exists td_pop eigenvals eigenvectors,
    solve_matrix_exponential eig inv M td_n0 td_t
    = Ok (td_pop, eigenvals, eigenvectors)
    /\ forall t a b, t < length td_t -> a < k -> b < l ->
         ksum S (fun i => data td_pop [i; t; a; b])
         = ksum S (fun i => nth i td_n0 kzero).
Proof.
  intros HM Hn He Hi HE HI HC.
  destruct (time_dependent_run M td_n0 td_t HM Hn He Hi) as (pop & Hrun & Hsh & Hd).
  exists pop, (transpose_raw [2; 0; 1] vals), (transpose_raw [2; 3; 0; 1] vecs).
  split; [exact Hrun|].
  intros t a b Ht Ha Hb.
  transitivity (ksum S (fun i => ksum S (fun j =>
             kmul (data vecs [a; b; i; j]) (project W S td_n0 [a; b] j)))).
  2:{ apply ksum_ext. intros i Hi'.
      exact (reconstruct_projection td_n0 HI Ha Hb Hi'). }
  rewrite (ksum_ext S (fun i => data pop [i; t; a; b]) _
             (fun i Hi' => Hd i t a b Hi' Ht Ha Hb)).
  rewrite ksum_swap. symmetry. rewrite ksum_swap. symmetry.
  apply ksum_ext. intros j Hj.
  rewrite !ksum_mul_r.
  destruct (eigen_column_sum HC HE Ha Hb Hj) as [Hz|Hz]; rewrite Hz.
  - ring.
  - replace (kmul kzero (nth t td_t kzero)) with kzero by ring.
    rewrite num_exp0. ring.
Qed.

(** *** Argsort *)

Lemma abs_leb_refl x : abs_leb x x = true.
Proof. now destruct (abs_leb_total x x). Qed.

Lemma insert_by_In key i l x :
  In x (insert_by key i l) <-> x = i \/ In x l.
Proof.
  induction l as [|j r IH]; simpl.
  - intuition.
  - destruct (abs_leb (key i) (key j)); simpl; [intuition|].
    rewrite IH. intuition.
Qed.

Lemma insert_by_length key i l :
  length (insert_by key i l) = Datatypes.S (length l).
Proof.
  induction l as [|j r IH]; simpl; [reflexivity|].
  destruct (abs_leb (key i) (key j)); simpl; [reflexivity|]. now rewrite IH.
Qed.

Lemma insert_by_head_min key i l :
  head_min key l -> head_min key (insert_by key i l).
Proof.
  unfold head_min. destruct l as [|j r]; simpl.
  - intros _ x [<-|[]]. apply abs_leb_refl.
  - intros Hmin. destruct (abs_leb (key i) (key j)) eqn:E; simpl.
    + intros x [<-|Hx]; [apply abs_leb_refl|].
      apply abs_leb_trans with (y := key j); auto.
    + intros x [<-|Hx]; [apply abs_leb_refl|].
      apply insert_by_In in Hx. destruct Hx as [->|Hx]; [|auto].
      destruct (abs_leb_total (key i) (key j)); congruence.
Qed.

Lemma sorted_indices_In key idxs x :
  In x (fold_right (insert_by key) [] idxs) <-> In x idxs.
Proof.
  induction idxs as [|i r IH]; simpl; [tauto|].
  rewrite insert_by_In, IH. intuition.
Qed.

Lemma sorted_indices_length key idxs :
  length (fold_right (insert_by key) [] idxs) = length idxs.
Proof.
  induction idxs as [|i r IH]; simpl; [reflexivity|].
  now rewrite insert_by_length, IH.
Qed.

Lemma sorted_indices_head_min key idxs :
  head_min key (fold_right (insert_by key) [] idxs).
Proof.
  induction idxs as [|i r IH]; simpl.
  - intros x [].
  - now apply insert_by_head_min.
Qed.

(** The first index [argsort] returns is in range and its entry is
    smallest in absolute value. *)
Lemma argsort_list_head (l : list K) :
  0 < length l ->
  let m := nth 0 (argsort_list l) 0 in
  m < length l /\
  forall j, j < length l -> abs_leb (nth m l kzero) (nth j l kzero) = true.
Proof.
  intros Hl m. unfold argsort_list in m.
  set (key := fun i => nth i l kzero) in *.
  set (s := fold_right (insert_by key) [] (seq 0 (length l))) in *.
  assert (Hlen : length s = length l).
  { unfold s. now rewrite sorted_indices_length, length_seq. }
  assert (Hm : m = hd 0 s) by (unfold m; now destruct s).
  assert (Hin : In m s).
  { rewrite Hm. destruct s; simpl in *; [lia|auto]. }
  split.
  - apply sorted_indices_In, in_seq in Hin. lia.
  - intros j Hj. rewrite Hm.
    apply (sorted_indices_head_min key (seq 0 (length l))).
    apply sorted_indices_In, in_seq. lia.
Qed.

Lemma nth_map_seq {A : Type} (f : nat -> A) (d : A) n j :
  j < n -> nth j (map f (seq 0 n)) d = f j.
Proof.
  intros Hj. rewrite nth_indep with (d' := f 0) by (now rewrite length_map, length_seq).
  rewrite (map_nth f (seq 0 n) 0 j). now rewrite seq_nth.
Qed.

(** *** The steady-state solver *)

Lemma steady_state_run4 (M : ndarray K) {S k l : nat} {vals vecs W : ndarray K} :
  shape M = [S; S; k; l] ->
  0 < S ->
  eig_returns eig (transpose_raw [2; 3; 0; 1] M) vals vecs [k; l] S ->
  inv_returns inv vecs W [k; l] S ->
  exists ss,
    solve_matrix_exponential_steady_state eig inv M = Ok (ss, vals, vecs)
    /\ shape ss = [S; k; l]
    /\ forall i a b, i < S -> a < k -> b < l ->
         let m := nth 0 (argsort_list (eig_row vals [a; b] S)) 0 in
         data ss [i; a; b]
         = kmul (project W S (kone :: repeat kzero (S - 1)) [a; b] m)
                (data vecs [a; b; i; m]).
Proof.
  intros HM HS (Heig & Hvals & Hvecs) (Hinv & HW).
  destruct vals as [sv dv], vecs as [se de], W as [sw dw].
  simpl in Hvals, Hvecs, HW. subst sv se sw.
  unfold solve_matrix_exponential_steady_state, unit_n0, transpose, ndim.
  rewrite HM. destruct S as [|n]; [lia|]. simpl.
  rewrite Heig. simpl. rewrite Hinv. simpl.
  unfold np_dot. simpl.
  rewrite repeat_length, Nat.sub_0_r, Nat.eqb_refl. simpl.
  unfold fancy_ix, ndim. simpl.
  rewrite ?Nat.leb_refl. simpl.
  unfold einsum_kl_klj_klj. simpl. rewrite !bdim_refl. simpl.
  eexists. split; [reflexivity|]. split; [reflexivity|].
  intros i a b Hi Ha Hb. simpl. unclamp.
  reflexivity.
Qed.

Lemma steady_state_run3 (M : ndarray K) {S k : nat} {vals vecs W : ndarray K} :
  shape M = [S; S; k] ->
  0 < S ->
  eig_returns eig (transpose_raw [2; 0; 1] M) vals vecs [k] S ->
  inv_returns inv vecs W [k] S ->
  exists ss,
    solve_matrix_exponential_steady_state eig inv M = Ok (ss, vals, vecs)
    /\ shape ss = [S; k]
    /\ forall i a, i < S -> a < k ->
         let m := nth 0 (argsort_list (eig_row vals [a] S)) 0 in
         data ss [i; a]
         = kmul (project W S (kone :: repeat kzero (S - 1)) [a] m)
                (data vecs [a; i; m]).
Proof.
  intros HM HS (Heig & Hvals & Hvecs) (Hinv & HW).
  destruct vals as [sv dv], vecs as [se de], W as [sw dw].
  simpl in Hvals, Hvecs, HW. subst sv se sw.
  unfold solve_matrix_exponential_steady_state, unit_n0, transpose, ndim.
  rewrite HM. destruct S as [|n]; [lia|]. simpl.
  rewrite Heig. simpl. rewrite Hinv. simpl.
  unfold np_dot. simpl.
  rewrite repeat_length, Nat.sub_0_r, Nat.eqb_refl. simpl.
  unfold fancy_ix, ndim. simpl.
  rewrite ?Nat.leb_refl. simpl.
  unfold einsum_k_kj_kj. simpl. rewrite !bdim_refl. simpl.
  eexists. split; [reflexivity|]. split; [reflexivity|].
  intros i a Hi Ha. simpl. unclamp.
  reflexivity.
Qed.

Lemma eig_row_length (vals : ndarray K) pre S : length (eig_row vals pre S) = S.
Proof. unfold eig_row. now rewrite length_map, length_seq. Qed.

Lemma eig_row_nth (vals : ndarray K) pre S j :
  j < S -> nth j (eig_row vals pre S) kzero = data vals (pre ++ [j]).
Proof. intros Hj. unfold eig_row. now rewrite nth_map_seq. Qed.

(** The mode the steady-state solver selects in the batch element [pre]. *)
Lemma selected_mode_smallest (vals : ndarray K) pre {S} :
  0 < S ->
  let m := nth 0 (argsort_list (eig_row vals pre S)) 0 in
  m < S /\
  forall j, j < S ->
    abs_leb (data vals (pre ++ [m])) (data vals (pre ++ [j])) = true.
Proof.
  intros HS m.
  destruct (argsort_list_head (eig_row vals pre S)) as [Hm Hmin].
  { now rewrite eig_row_length. }
  rewrite eig_row_length in Hm, Hmin. fold m in Hm, Hmin.
  split; [exact Hm|].
  intros j Hj. specialize (Hmin j Hj).
  now rewrite !eig_row_nth in Hmin.
Qed.

(** C3. Steady-state solver postcondition: on a diagonalizable batch of
    rank 3 ([S,S,k]) or rank 4 ([S,S,k,l]) the solver projects the vector
    with 1 in state 0 and 0 elsewhere into the eigenbasis and returns, in
    each batch element, the eigenvector of an eigenvalue of smallest
    absolute value scaled by that mode's projected amplitude. *)
Theorem steady_state_postcondition (M : ndarray K) (S : nat) (bs : list nat)
        (vals vecs W : ndarray K) :
  length bs = 1 \/ length bs = 2 ->
  0 < S ->
  shape M = S :: S :: bs ->
  eig_returns eig (transpose_raw (batch_first bs) M) vals vecs bs S ->
  inv_returns inv vecs W bs S ->
  exists ss_pop,
    solve_matrix_exponential_steady_state eig inv M = Ok (ss_pop, vals, vecs)
    /\ shape ss_pop = S :: bs
    /\ forall pre, in_batch pre bs ->
         exists m, m < S
           /\ (forall j, j < S ->
                 abs_leb (data vals (pre ++ [m])) (data vals (pre ++ [j])) = true)
           /\ forall i, i < S ->
                data ss_pop (i :: pre)
                = kmul (project W S (kone :: repeat kzero (S - 1)) pre m)
                       (data vecs (pre ++ [i; m])).
Proof.
  intros Hbs HS HM He Hi.
  destruct Hbs as [Hbs|Hbs].
  - destruct bs as [|k [|? ?]]; try discriminate. clear Hbs.
    destruct (steady_state_run3 M HM HS He Hi) as (ss & Hrun & Hsh & Hd).
    exists ss. split; [exact Hrun|]. split; [exact Hsh|].
    intros pre Hpre. inversion Hpre as [|a ? ? ? Ha Hnil]; subst.
    inversion Hnil; subst.
    destruct (selected_mode_smallest vals [a] HS) as [Hm Hmin].
    eexists. split; [exact Hm|]. split; [exact Hmin|].
    intros i Hi'. now apply Hd.
  - destruct bs as [|k [|l [|? ?]]]; try discriminate. clear Hbs.
    destruct (steady_state_run4 M HM HS He Hi) as (ss & Hrun & Hsh & Hd).
    exists ss. split; [exact Hrun|]. split; [exact Hsh|].
    intros pre Hpre. inversion Hpre as [|a ? ? ? Ha Hr]; subst.
    inversion Hr as [|b ? ? ? Hb Hnil]; subst. inversion Hnil; subst.
    destruct (selected_mode_smallest vals [a; b] HS) as [Hm Hmin].
    eexists. split; [exact Hm|]. split; [exact Hmin|].
    intros i Hi'. now apply Hd.
Qed.

(** C7 (amended). The steady-state solver returns the eigenvalue and
    eigenvector arrays exactly as [numpy.linalg.eig] produced them, in the
    eigensolver's order: the ordering by ascending absolute value is used
    only to select the mode of [ss_pop] and is not applied to what is
    returned. *)
Theorem steady_state_returns_eig_output (M : ndarray K) (S : nat) (bs : list nat)
        (vals vecs W : ndarray K) :
  length bs = 1 \/ length bs = 2 ->
  0 < S ->
  shape M = S :: S :: bs ->
  eig_returns eig (transpose_raw (batch_first bs) M) vals vecs bs S ->
  inv_returns inv vecs W bs S ->
  exists ss_pop eigenvals eigenvectors,
    solve_matrix_exponential_steady_state eig inv M
    = Ok (ss_pop, eigenvals, eigenvectors)
    /\ eigenvals = vals /\ eigenvectors = vecs.
Proof.
  intros Hbs HS HM He Hi.
  destruct Hbs as [Hbs|Hbs].
  - destruct bs as [|k [|? ?]]; try discriminate.
    destruct (steady_state_run3 M HM HS He Hi) as (ss & Hrun & _).
    exists ss, vals, vecs. auto.
  - destruct bs as [|k [|l [|? ?]]]; try discriminate.
    destruct (steady_state_run4 M HM HS He Hi) as (ss & Hrun & _).
    exists ss, vals, vecs. auto.
Qed.

(** C9. Rank handling in the steady-state path: for an input of rank
    other than 3 and 4 the call raises (IndexError from [td_n0], or
    UnboundLocalError because no branch binds the eigendecomposition)
    and returns no value. *)
Theorem steady_state_rank (M : ndarray K) :
  ndim M <> 3 -> ndim M <> 4 ->
  solve_matrix_exponential_steady_state eig inv M = Raise IndexError
  \/ solve_matrix_exponential_steady_state eig inv M = Raise UnboundLocalError.
Proof.
  intros H3 H4. unfold solve_matrix_exponential_steady_state.
  apply Nat.eqb_neq in H3, H4. rewrite H3, H4.
  destruct (unit_n0 M) as [n0|e] eqn:E; simpl.
  - now right.
  - left. unfold unit_n0 in E.
    destruct (shape M) as [|n r]; [congruence|].
    destruct (n =? 0); congruence.
Qed.

(** *** The source solver: index bookkeeping *)

Lemma existsb_false {A : Type} (f : A -> bool) (l : list A) :
  existsb f l = false <-> forall x, In x l -> f x = false.
Proof.
  induction l as [|y r IH]; simpl.
  - split; [intros _ x []|reflexivity].
  - rewrite orb_false_iff, IH. split.
    + intros [Hy Hr] x [<-|Hx]; auto.
    + intros H. split; auto.
Qed.

Lemma all_indices_bounds sh idx :
  In idx (all_indices sh) -> Forall2 lt idx sh.
Proof.
  revert idx. induction sh as [|d r IH]; simpl; intros idx Hin.
  - destruct Hin as [<-|[]]. constructor.
  - apply in_flat_map in Hin. destruct Hin as (i & Hi & Hin).
    apply in_map_iff in Hin. destruct Hin as (tl & <- & Htl).
    apply in_seq in Hi. constructor; [lia|auto].
Qed.

(** The third coordinates [np.where] returns index the mode axis. *)
Lemma where_coord2_lt (vals : ndarray K) k l S j :
  shape vals = [k; l; S] ->
  In j (coord 2 (np_where_zero vals)) -> j < S.
Proof.
  intros Hs Hj. unfold coord in Hj. apply in_map_iff in Hj.
  destruct Hj as (idx & <- & Hidx).
  unfold np_where_zero in Hidx. apply filter_In in Hidx.
  destruct Hidx as [Hidx _]. rewrite Hs in Hidx.
  apply all_indices_bounds in Hidx.
  inversion Hidx as [|a ? ? ? _ H1]; subst.
  inversion H1 as [|b ? ? ? _ H2]; subst.
  inversion H2 as [|c ? ? ? Hc H3]; subst.
  exact Hc.
Qed.

(** An exact zero found by [np.where] is a zero of the array. *)
Lemma where_is_zero (vals : ndarray K) idx :
  In idx (np_where_zero vals) -> data vals idx = kzero.
Proof.
  unfold np_where_zero. intros H. apply filter_In in H.
  now apply num_is_zero.
Qed.

Lemma filter_length_le {A : Type} (f g : A -> bool) (l : list A) :
  (forall x, In x l -> f x = true -> g x = true) ->
  length (filter f l) <= length (filter g l).
Proof.
  induction l as [|y r IH]; simpl; intros H; [lia|].
  assert (IH' : length (filter f r) <= length (filter g r)) by (apply IH; auto).
  destruct (f y) eqn:Ef.
  - rewrite (H y (or_introl eq_refl) Ef). simpl. lia.
  - destruct (g y); simpl; lia.
Qed.

Lemma filter_length_bound {A : Type} (f : A -> bool) (l : list A) :
  length (filter f l) <= length l.
Proof.
  induction l as [|y r IH]; simpl; [lia|]. destruct (f y); simpl; lia.
Qed.

(** A non-empty list has an element of smallest key. *)
Lemma list_min_exists (key : nat -> nat) (l : list nat) :
  l <> [] -> exists x, In x l /\ forall y, In y l -> key x <= key y.
Proof.
  induction l as [|a r IH]; [congruence|]. intros _.
  destruct r as [|b r'].
  - exists a. split; [now left|]. intros y [<-|[]]. lia.
  - destruct IH as (x & Hx & Hmin); [congruence|].
    destruct (le_lt_dec (key a) (key x)) as [Hle|Hlt].
    + exists a. split; [now left|].
      intros y [<-|Hy]; [lia|]. specialize (Hmin y Hy). lia.
    + exists x. split; [now right|].
      intros y [<-|Hy]; [lia|]. now apply Hmin.
Qed.

(** An inserted value comes from a position of the index list. *)
Lemma insert_src_inr indices p r :
  insert_src indices p = inr r ->
  r < length indices /\ insert_at indices r = p.
Proof.
  unfold insert_src.
  destruct (find _ _) as [r'|] eqn:E; [|discriminate].
  intros [= <-]. apply find_some in E. destruct E as [Hin Heq].
  apply in_seq in Hin. apply Nat.eqb_eq in Heq. split; [lia|exact Heq].
Qed.

Lemma filter_all_length {A : Type} (f : A -> bool) (l : list A) :
  (forall x, In x l -> f x = true) -> length (filter f l) = length l.
Proof.
  induction l as [|y r IH]; simpl; intros H; [reflexivity|].
  rewrite (H y (or_introl eq_refl)). simpl. rewrite IH; auto.
Qed.

Lemma count_below r Z :
  r <= Z -> length (filter (fun r' => r' <? r) (seq 0 Z)) = r.
Proof.
  induction Z as [|Z IH]; intros Hr.
  - simpl. lia.
  - rewrite seq_S, filter_app, length_app. simpl.
    destruct (Nat.eq_dec r (Datatypes.S Z)) as [->|Hne].
    + rewrite filter_all_length.
      * rewrite length_seq.
        replace (Z <? Datatypes.S Z) with true
          by (symmetry; apply Nat.ltb_lt; lia).
        simpl. lia.
      * intros x Hx. apply in_seq in Hx. apply Nat.ltb_lt. lia.
    + rewrite IH by lia.
      replace (Z <? r) with false by (symmetry; apply Nat.ltb_ge; lia).
      simpl. lia.
Qed.

(** Inserting into an axis of length zero: entry [r] lands at [r]. *)
Lemma insert_at_zero indices r :
  (forall x, In x indices -> x <= 0) ->
  r < length indices ->
  insert_at indices r = r.
Proof.
  intros Hb Hr.
  assert (Hz : forall i, nth i indices 0 = 0).
  { intros i. destruct (le_lt_dec (length indices) i) as [Hge|Hlt].
    - now apply nth_overflow.
    - specialize (Hb _ (nth_In indices 0 Hlt)). lia. }
  unfold insert_at. rewrite Hz. simpl.
  rewrite (filter_ext _ (fun r' => r' <? r)).
  - apply count_below. lia.
  - intros r'. now rewrite Hz.
Qed.

(** An old entry comes from a position of the old axis. *)
Lemma insert_src_inl indices N p q :
  (forall x, In x indices -> x <= N) ->
  p < N + length indices ->
  insert_src indices p = inl q ->
  q < N.
Proof.
  intros Hb Hp. unfold insert_src.
  set (Z := length indices) in *.
  destruct (find _ _) eqn:E; [discriminate|]. intros [= <-].
  set (c := length (filter (fun r => insert_at indices r <? p) (seq 0 Z))).
  assert (Hnot : forall r, In r (seq 0 Z) -> insert_at indices r <> p).
  { intros r Hr Heq. apply (find_none _ _ E) in Hr.
    apply Nat.eqb_neq in Hr. contradiction. }
  destruct N as [|N'].
  { exfalso. apply (Hnot p); [apply in_seq; lia|].
    apply insert_at_zero; [exact Hb|]. fold Z. lia. }
  destruct (filter (fun r => p <? insert_at indices r) (seq 0 Z)) as [|b0 B'] eqn:EB.
  - assert (Hc : c = Z).
    { unfold c. rewrite filter_all_length; [now rewrite length_seq|].
      intros r Hr. apply Nat.ltb_lt.
      assert (Hn := Hnot r Hr).
      destruct (le_lt_dec p (insert_at indices r)) as [Hle|Hlt]; [|exact Hlt].
      assert (Hin : In r (filter (fun r0 => p <? insert_at indices r0) (seq 0 Z))).
      { apply filter_In. split; [exact Hr|]. apply Nat.ltb_lt. lia. }
      rewrite EB in Hin. destruct Hin. }
    clearbody c Z. lia.
  - destruct (list_min_exists (fun r => nth r indices 0 * Z + r) (b0 :: B'))
      as (r & Hr & Hmin); [congruence|].
    rewrite <- EB in Hr, Hmin. apply filter_In in Hr. destruct Hr as [Hr Hgt].
    apply Nat.ltb_lt in Hgt. apply in_seq in Hr.
    assert (Hrank :
      length (filter (fun r' => (nth r' indices 0 <? nth r indices 0)
                                || ((nth r' indices 0 =? nth r indices 0) && (r' <? r)))
                     (seq 0 Z)) <= c).
    { unfold c. apply filter_length_le. intros r' Hr' Hbefore.
      apply Nat.ltb_lt.
      destruct (le_lt_dec p (insert_at indices r')) as [Hle|Hlt]; [|exact Hlt].
      exfalso. assert (Hn := Hnot r' Hr').
      assert (Hin : In r' (filter (fun r0 => p <? insert_at indices r0) (seq 0 Z))).
      { apply filter_In. split; [exact Hr'|]. apply Nat.ltb_lt. lia. }
      specialize (Hmin r' Hin). simpl in Hmin.
      apply in_seq in Hr'.
      apply orb_true_iff in Hbefore. destruct Hbefore as [H1|H1].
      - apply Nat.ltb_lt in H1. clearbody Z. nia.
      - apply andb_true_iff in H1. destruct H1 as [H1 H2].
        apply Nat.eqb_eq in H1. apply Nat.ltb_lt in H2. clearbody Z. nia. }
    assert (Hx : nth r indices 0 <= Datatypes.S N').
    { apply Hb. apply nth_In. fold Z. lia. }
    unfold insert_at in Hgt. fold Z in Hgt. clearbody c Z. lia.
Qed.

(** *** The source solver: the mode amplitudes *)

Lemma source_modes_run (M : ndarray K) (n0 src tt : list K) {S k l : nat}
      {vals vecs W : ndarray K} :
  shape M = [S; S; k; l] ->
  length n0 = S ->
  length src = S ->
  eig_returns eig (transpose_raw [2; 3; 0; 1] M) vals vecs [k; l] S ->
  inv_returns inv vecs W [k; l] S ->
  let w := np_where_zero vals in
  existsb (fun v => S <=? v) (concat w) = false ->
  existsb (fun v => length (kept_modes w S) <? v) (coord 2 w) = false ->
  exists v,
    source_modes eig inv M n0 src tt = Ok (v, vals, vecs)
    /\ shape v = [k; l; length (kept_modes w S) + length w; length tt]
    /\ forall a b p t,
         a < k -> b < l -> p < length (kept_modes w S) + length w ->
         t < length tt ->
         data v [a; b; p; t] = source_mode_value w vals W S n0 src tt a b p t.
Proof.
  intros HM Hn Hs (Heig & Hvals & Hvecs) (Hinv & HW) w Hdel Hins.
  assert (Hw2 : existsb (fun j => S <=? j) (coord 2 w) = false).
  { apply existsb_false. intros j Hj. apply Nat.leb_gt.
    now apply (where_coord2_lt vals k l S j Hvals). }
  assert (Hlen : length (coord 2 w) = length w) by apply length_map.
  assert (Hbw : forall x, In x (coord 2 w) -> x <= length (kept_modes w S)).
  { intros x Hx. apply (proj1 (existsb_false _ _) Hins) in Hx.
    now apply Nat.ltb_ge in Hx. }
  unfold source_mode_value.
  destruct vals as [sv dv], vecs as [se de], W as [sw dw].
  simpl in Hvals, Hvecs, HW. subst sv se sw.
  unfold source_modes, transpose, ndim.
  rewrite HM. simpl. rewrite Heig. simpl. rewrite Hinv. simpl.
  unfold np_dot. simpl. rewrite Hs, Hn, Nat.eqb_refl. simpl.
  fold w. clearbody w.
  unfold np_delete, ndim. simpl. rewrite Hdel. simpl.
  fold (kept_modes w S).
  set (keep := kept_modes w S) in *.
  bcast. bcast.
  unfold take_axis2, ndim. simpl. rewrite Hw2. simpl.
  unfold newaxis3, ndim. simpl.
  bcast. bcast. bcast. bcast. bcast. bcast.
  unfold np_insert, ndim. cbn [shape length Nat.leb nth]. rewrite Hins.
  cbn [set_nth]. unfold broadcast_shape. simpl. rewrite !bdim_refl. simpl.
  rewrite shape_eqb_refl. simpl. rewrite Hlen.
  eexists. split; [reflexivity|]. split; [reflexivity|].
  intros a b p t Ha Hb Hp Ht. simpl.
  destruct (insert_src (coord 2 w) p) as [q|r] eqn:E.
  - assert (Hq : q < length keep).
    { apply (insert_src_inl (coord 2 w) (length keep) p q Hbw); [lia|exact E]. }
    unclamp. reflexivity.
  - apply insert_src_inr in E. destruct E as [Hr _]. rewrite Hlen in Hr.
    unclamp. reflexivity.
Qed.

(** The source solver raises IndexError when [np.delete] is handed an
    index past the mode axis, or [np.insert] one past the shortened
    axis. *)
Lemma source_modes_raises (M : ndarray K) (n0 src tt : list K) {S k l : nat}
      {vals vecs W : ndarray K} :
  shape M = [S; S; k; l] ->
  length n0 = S ->
  length src = S ->
  eig_returns eig (transpose_raw [2; 3; 0; 1] M) vals vecs [k; l] S ->
  inv_returns inv vecs W [k; l] S ->
  let w := np_where_zero vals in
  existsb (fun v => S <=? v) (concat w) = true
  \/ existsb (fun v => length (kept_modes w S) <? v) (coord 2 w) = true ->
  source_modes eig inv M n0 src tt = Raise IndexError.
Proof.
  intros HM Hn Hs (Heig & Hvals & Hvecs) (Hinv & HW) w Hbad.
  assert (Hw2 : existsb (fun j => S <=? j) (coord 2 w) = false).
  { apply existsb_false. intros j Hj. apply Nat.leb_gt.
    now apply (where_coord2_lt vals k l S j Hvals). }
  destruct vals as [sv dv], vecs as [se de], W as [sw dw].
  simpl in Hvals, Hvecs, HW. subst sv se sw.
  unfold source_modes, transpose, ndim.
  rewrite HM. simpl. rewrite Heig. simpl. rewrite Hinv. simpl.
  unfold np_dot. simpl. rewrite Hs, Hn, Nat.eqb_refl. simpl.
  fold w. clearbody w.
  unfold np_delete, ndim. simpl.
  destruct (existsb (fun v => S <=? v) (concat w)) eqn:Hdel; [reflexivity|].
  destruct Hbad as [Hbad|Hins]; [discriminate|]. simpl.
  fold (kept_modes w S) in *.
  set (keep := kept_modes w S) in *.
  bcast. bcast.
  unfold take_axis2, ndim. simpl. rewrite Hw2. simpl.
  unfold newaxis3, ndim. simpl.
  bcast. bcast. bcast. bcast. bcast. bcast.
  unfold np_insert, ndim. cbn [shape length Nat.leb nth]. rewrite Hins.
  reflexivity.
Qed.

(** With no exact zero every mode is kept, in order. *)
Lemma kept_modes_nil S : kept_modes [] S = seq 0 S.
Proof.
  unfold kept_modes. simpl.
  induction (seq 0 S) as [|x r IH]; simpl; [reflexivity|]. now rewrite IH.
Qed.

Lemma filter_all {A : Type} (f : A -> bool) (l : list A) :
  (forall x, In x l -> f x = true) -> filter f l = l.
Proof.
  induction l as [|y r IH]; simpl; intros H; [reflexivity|].
  rewrite (H y (or_introl eq_refl)). rewrite IH; auto.
Qed.

(** With the single zero [(j, j, j)] every mode but [j] is kept. *)
Lemma kept_modes_single j S :
  j < S -> kept_modes [[j; j; j]] S = seq 0 j ++ seq (Datatypes.S j) (S - j - 1).
Proof.
  intros Hj. unfold kept_modes. simpl.
  replace S with (j + Datatypes.S (S - j - 1)) at 1 by lia.
  rewrite seq_app, filter_app. simpl. rewrite Nat.eqb_refl. simpl.
  rewrite !filter_all; [reflexivity| |].
  - intros x Hx. apply in_seq in Hx.
    replace (x =? j) with false by (symmetry; apply Nat.eqb_neq; lia).
    reflexivity.
  - intros x Hx. apply in_seq in Hx.
    replace (x =? j) with false by (symmetry; apply Nat.eqb_neq; lia).
    reflexivity.
Qed.

Lemma nth_kept_single j S q :
  j < S -> q < S - 1 ->
  nth q (kept_modes [[j; j; j]] S) 0 = if q <? j then q else Datatypes.S q.
Proof.
  intros Hj Hq. rewrite kept_modes_single by exact Hj.
  destruct (q <? j) eqn:E.
  - apply Nat.ltb_lt in E.
    rewrite app_nth1 by (rewrite length_seq; lia). now rewrite seq_nth.
  - apply Nat.ltb_ge in E.
    rewrite app_nth2 by (rewrite length_seq; lia).
    rewrite length_seq, seq_nth by lia. lia.
Qed.

(** The value of a mode when no eigenvalue is exactly zero. *)
Lemma source_value_no_zero (vals W : ndarray K) S n0 src tt a b p t :
  p < S ->
  source_mode_value [] vals W S n0 src tt a b p t
  = mode_exp (project W S n0 [a; b] p) (project W S src [a; b] p)
             (data vals [a; b; p]) (nth t tt kzero).
Proof.
  intros Hp. unfold source_mode_value. simpl.
  rewrite kept_modes_nil, Nat.sub_0_r, seq_nth by exact Hp. reflexivity.
Qed.

(** The value of a mode when the only exact zero is [(j, j, j)]. *)
Lemma source_value_single_zero (vals W : ndarray K) S n0 src tt a b j p t :
  j < S -> p < S ->
  source_mode_value [[j; j; j]] vals W S n0 src tt a b p t
  = if p =? j
    then mode_lin (project W S n0 [a; b] j) (project W S src [a; b] j)
                  (nth t tt kzero)
    else mode_exp (project W S n0 [a; b] p) (project W S src [a; b] p)
                  (data vals [a; b; p]) (nth t tt kzero).
Proof.
  intros Hj Hp. unfold source_mode_value, insert_src, insert_at. simpl.
  rewrite Nat.ltb_irrefl, Nat.eqb_refl. simpl. rewrite Nat.add_0_r.
  rewrite (Nat.eqb_sym p j).
  destruct (j =? p) eqn:E; [reflexivity|].
  apply Nat.eqb_neq in E.
  destruct (j <? p) eqn:E2; simpl.
  - apply Nat.ltb_lt in E2. rewrite nth_kept_single by lia.
    replace (p - 1 <? j) with false by (symmetry; apply Nat.ltb_ge; lia).
    replace (Datatypes.S (p - 1)) with p by lia. reflexivity.
  - apply Nat.ltb_ge in E2. rewrite Nat.sub_0_r, nth_kept_single by lia.
    replace (p <? j) with true by (symmetry; apply Nat.ltb_lt; lia).
    reflexivity.
Qed.

(** *** The source solver: populations *)

Lemma source_run (M : ndarray K) (n0 src tt : list K) {S k l : nat}
      {vals vecs W : ndarray K} :
  shape M = [S; S; k; l] ->
  length n0 = S ->
  length src = S ->
  eig_returns eig (transpose_raw [2; 3; 0; 1] M) vals vecs [k; l] S ->
  inv_returns inv vecs W [k; l] S ->
  let w := np_where_zero vals in
  existsb (fun v => S <=? v) (concat w) = false ->
  existsb (fun v => length (kept_modes w S) <? v) (coord 2 w) = false ->
  length (kept_modes w S) + length w = S ->
  exists pop,
    solve_matrix_exponential_source eig inv M n0 src tt = Ok (pop, vals, vecs)
    /\ shape pop = [S; length tt; k; l]
    /\ forall i t a b, i < S -> t < length tt -> a < k -> b < l ->
         data pop [i; t; a; b]
         = ksum S (fun j =>
             kmul (data vecs [a; b; i; j])
                  (source_mode_value w vals W S n0 src tt a b j t)).
Proof.
  intros HM Hn Hs He Hi w Hdel Hins HNZ.
  destruct (source_modes_run M n0 src tt HM Hn Hs He Hi Hdel Hins)
    as (v & Hrun & Hsh & Hd).
  fold w in Hsh, Hd. rewrite HNZ in Hsh, Hd.
  destruct He as (_ & _ & Hvecs). simpl in Hvecs.
  unfold solve_matrix_exponential_source. rewrite Hrun. simpl.
  unfold einsum_klij_kljt_itkl. rewrite Hvecs, Hsh.
  rewrite !bdim_refl. simpl.
  eexists. split; [reflexivity|]. split; [reflexivity|].
  intros i t a b Hi' Ht Ha Hb. simpl.
  apply ksum_ext. intros j Hj. unclamp. now rewrite Hd.
Qed.

(** On clean inputs neither [np.delete] nor [np.insert] raises, the mode
    axis keeps its length and every position holds its own mode. *)
Lemma clean_zeros_run (vals W : ndarray K) (S k l : nat) n0 src tt :
  shape vals = [k; l; S] ->
  let w := np_where_zero vals in
  clean_zeros w ->
  existsb (fun v => S <=? v) (concat w) = false
  /\ existsb (fun v => length (kept_modes w S) <? v) (coord 2 w) = false
  /\ length (kept_modes w S) + length w = S
  /\ forall a b j t, j < S ->
       source_mode_value w vals W S n0 src tt a b j t
       = batch_mode_value w vals W S n0 src tt a b j t.
Proof.
  intros Hsh w [Hw|(j & Hw)].
  - rewrite Hw. simpl. rewrite kept_modes_nil, length_seq.
    repeat split; try lia.
    intros a b j t Hj. now rewrite source_value_no_zero.
  - assert (Hj : j < S).
    { apply (where_coord2_lt vals k l S j Hsh). fold w. rewrite Hw. now left. }
    rewrite Hw. rewrite kept_modes_single by exact Hj.
    rewrite length_app, !length_seq. simpl.
    replace (S <=? j) with false by (symmetry; apply Nat.leb_gt; lia).
    replace (j + (S - j - 1) <? j) with false
      by (symmetry; apply Nat.ltb_ge; lia).
    repeat split; try lia.
    intros a b p t Hp. rewrite source_value_single_zero by assumption.
    unfold batch_mode_value, is_zero_mode. simpl.
    destruct (p =? j) eqn:E; simpl; [|reflexivity].
    apply Nat.eqb_eq in E. now subst.
Qed.

Lemma source_clean_run (M : ndarray K) (td_n0 source td_t : list K) {S k l : nat}
      {vals vecs W : ndarray K} :
  shape M = [S; S; k; l] ->
  length td_n0 = S ->
  length source = S ->
  eig_returns eig (transpose_raw [2; 3; 0; 1] M) vals vecs [k; l] S ->
  inv_returns inv vecs W [k; l] S ->
  clean_zeros (np_where_zero vals) ->
  exists td_pop,
    solve_matrix_exponential_source eig inv M td_n0 source td_t
    = Ok (td_pop, vals, vecs)
    /\ shape td_pop = [S; length td_t; k; l]
    /\ forall i t a b, i < S -> t < length td_t -> a < k -> b < l ->
         data td_pop [i; t; a; b]
         = ksum S (fun j =>
             kmul (data vecs [a; b; i; j])
                  (batch_mode_value (np_where_zero vals) vals W S
                                    td_n0 source td_t a b j t)).
Proof.
  intros HM Hn Hs He Hi Hc.
  destruct (clean_zeros_run vals W S k l td_n0 source td_t
              (proj1 (proj2 He)) Hc) as (Hdel & Hins & HNZ & Hval).
  destruct (source_run M td_n0 source td_t HM Hn Hs He Hi Hdel Hins HNZ)
    as (pop & Hrun & Hsh & Hd).
  exists pop. split; [exact Hrun|]. split; [exact Hsh|].
  intros i t a b Hi' Ht Ha Hb. rewrite Hd by assumption.
  apply ksum_ext. intros j Hj. now rewrite Hval.
Qed.


End Theory.

(** ** The real numbers satisfy the laws *)

Lemma R_laws : @NumLaws R R_ops.
Proof.
  constructor; simpl.
  - exact RTheory.
  - intros x y. unfold Rdiv. ring.
  - exact Rmult_integral.
  - intros x. destruct (Req_dec_T x 0); split; congruence.
  - exact exp_0.
  - intros x y.
    destruct (Rle_dec (Rabs x) (Rabs y)) as [H|H]; [now left|].
    destruct (Rle_dec (Rabs y) (Rabs x)) as [H'|H']; [now right|]. lra.
  - intros x y z.
    destruct (Rle_dec (Rabs x) (Rabs y)) as [H|H]; [|discriminate].
    destruct (Rle_dec (Rabs y) (Rabs z)) as [H'|H']; [|discriminate].
    destruct (Rle_dec (Rabs x) (Rabs z)) as [H''|H'']; [reflexivity|lra].
Qed.

(** ** Concrete runs *)

Lemma decay_eig_returns :
  eig_returns decay_eig (transpose_raw [2; 3; 0; 1] decay_matrix)
              decay_vals decay_vecs [1; 1] 2.
Proof. repeat split. Qed.

Lemma decay_inv_returns :
  inv_returns decay_inv decay_vecs decay_inv_vecs [1; 1] 2.
Proof. repeat split. Qed.

Lemma decay_is_inverse : is_inverse decay_vecs decay_inv_vecs 1 1 2.
Proof.
  intros a b i m Ha Hb Hi Hm.
  destruct i as [|[|i]], m as [|[|m]]; try lia; simpl; ring.
Qed.

Lemma decay_is_eigen :
  is_eigen (transpose_raw [2; 3; 0; 1] decay_matrix) decay_vals decay_vecs 1 1 2.
Proof.
  intros a b i j Ha Hb Hi Hj.
  destruct i as [|[|i]], j as [|[|j]]; try lia; simpl; ring.
Qed.

Lemma decay_columns : columns_sum_to_zero decay_matrix 1 1 2.
Proof.
  intros a b m Ha Hb Hm.
  destruct m as [|[|m]]; try lia; simpl; ring.
Qed.

Lemma time_dependent_postcondition_witness :
  exists td_pop eigenvals eigenvectors,
    solve_matrix_exponential decay_eig decay_inv decay_matrix
                             [1%R; 0%R] [0%R; 1%R]
    = Ok (td_pop, eigenvals, eigenvectors)
    /\ shape td_pop = [2; 2; 1; 1]
    /\ forall i t a b, i < 2 -> t < 2 -> a < 1 -> b < 1 ->
         data td_pop [i; t; a; b]
         = ksum 2 (fun j =>
             kmul (data decay_vecs [a; b; i; j])
                  (kmul (project decay_inv_vecs 2 [1%R; 0%R] [a; b] j)
                        (kexp (kmul (data decay_vals [a; b; j])
                                    (nth t [0%R; 1%R] kzero))))).
Proof.
  exact (time_dependent_postcondition decay_eig decay_inv decay_matrix
           [1%R; 0%R] [0%R; 1%R] 2 1 1 decay_vals decay_vecs decay_inv_vecs
           eq_refl eq_refl decay_eig_returns decay_inv_returns).
Defined.

Lemma initial_condition_recovery_witness :
  exists td_pop eigenvals eigenvectors,
    solve_matrix_exponential decay_eig decay_inv decay_matrix
                             [1%R; 0%R] [0%R; 1%R]
    = Ok (td_pop, eigenvals, eigenvectors)
    /\ forall i a b, i < 2 -> a < 1 -> b < 1 ->
         data td_pop [i; 0; a; b] = nth i [1%R; 0%R] kzero.
Proof.
  apply (initial_condition_recovery (laws := R_laws) decay_eig decay_inv
           decay_matrix [1%R; 0%R] [0%R; 1%R] 2 1 1
           decay_vals decay_vecs decay_inv_vecs 0).
  - reflexivity.
  - reflexivity.
  - exact decay_eig_returns.
  - exact decay_inv_returns.
  - exact decay_is_inverse.
  - simpl. lia.
  - reflexivity.
Defined.

Lemma population_conservation_witness :
  exists td_pop eigenvals eigenvectors,
    solve_matrix_exponential decay_eig decay_inv decay_matrix
                             [1%R; 0%R] [0%R; 1%R]
    = Ok (td_pop, eigenvals, eigenvectors)
    /\ forall t a b, t < 2 -> a < 1 -> b < 1 ->
         ksum 2 (fun i => data td_pop [i; t; a; b])
         = ksum 2 (fun i => nth i [1%R; 0%R] kzero).
Proof.
  apply (population_conservation (laws := R_laws) decay_eig decay_inv
           decay_matrix [1%R; 0%R] [0%R; 1%R] 2 1 1
           decay_vals decay_vecs decay_inv_vecs).
  - reflexivity.
  - reflexivity.
  - exact decay_eig_returns.
  - exact decay_inv_returns.
  - exact decay_is_eigen.
  - exact decay_is_inverse.
  - exact decay_columns.
Defined.

Ltac decide_zeros :=
  repeat match goal with
         | |- context [Req_dec_T ?x ?y] => destruct (Req_dec_T x y); try lra
         end.

Lemma steady_state_postcondition_witness :
  let M := diag2_rank3 (-2) (-1) in
  let vals := eig_diag_vals (transpose_raw [2; 0; 1] M) in
  let vecs := eig_diag_vecs (transpose_raw [2; 0; 1] M) in
  exists ss_pop,
    solve_matrix_exponential_steady_state eig_diag inv_id M
    = Ok (ss_pop, vals, vecs)
    /\ shape ss_pop = [2; 1]
    /\ forall pre, in_batch pre [1] ->
         exists m, m < 2
           /\ (forall j, j < 2 ->
                 abs_leb (data vals (pre ++ [m])) (data vals (pre ++ [j])) = true)
           /\ forall i, i < 2 ->
                data ss_pop (i :: pre)
                = kmul (project vecs 2 (kone :: repeat kzero (2 - 1)) pre m)
                       (data vecs (pre ++ [i; m])).
Proof.
  intros M vals vecs.
  apply (steady_state_postcondition (laws := R_laws) eig_diag inv_id M 2 [1]
           vals vecs vecs).
  - left. reflexivity.
  - lia.
  - reflexivity.
  - repeat split.
  - repeat split.
Defined.

Lemma steady_state_returns_eig_output_witness :
  let M := diag2_rank3 (-2) (-1) in
  exists ss_pop eigenvals eigenvectors,
    solve_matrix_exponential_steady_state eig_diag inv_id M
    = Ok (ss_pop, eigenvals, eigenvectors)
    /\ eigenvals = eig_diag_vals (transpose_raw [2; 0; 1] M)
    /\ eigenvectors = eig_diag_vecs (transpose_raw [2; 0; 1] M).
Proof.
  intros M.
  apply (steady_state_returns_eig_output eig_diag inv_id M 2 [1]
           (eig_diag_vals (transpose_raw [2; 0; 1] M))
           (eig_diag_vecs (transpose_raw [2; 0; 1] M))
           (eig_diag_vecs (transpose_raw [2; 0; 1] M))).
  - left. reflexivity.
  - lia.
  - reflexivity.
  - repeat split.
  - repeat split.
Defined.

Lemma steady_state_rank_witness :
  solve_matrix_exponential_steady_state eig_diag inv_id plain_matrix
  = Raise IndexError
  \/ solve_matrix_exponential_steady_state eig_diag inv_id plain_matrix
     = Raise UnboundLocalError.
Proof.
  apply (steady_state_rank eig_diag inv_id plain_matrix).
  - unfold ndim, plain_matrix. simpl. lia.
  - unfold ndim, plain_matrix. simpl. lia.
Defined.

(** The exact zeros of [diag(0, -1)]: eigenvalue 0 of the only batch
    element. *)
Lemma zero_first_where :
  np_where_zero (eig_diag_vals (transpose_raw [2; 3; 0; 1] (diag2 0 (-1))))
  = [[0; 0; 0]].
Proof. unfold np_where_zero. simpl. decide_zeros. reflexivity. Qed.

(** The exact zeros of [mixed_batch]: eigenvalue 1 of the batch element
    (1, 1). *)
Lemma mixed_batch_where :
  np_where_zero (eig_diag_vals (transpose_raw [2; 3; 0; 1] mixed_batch))
  = [[1; 1; 1]].
Proof. unfold np_where_zero. simpl. decide_zeros. reflexivity. Qed.


Lemma exp_neg_lt_1 (x : R) : (x < 0)%R -> (exp x < 1)%R.
Proof. intros Hx. rewrite <- exp_0. now apply exp_increasing. Qed.

(** C4, at the failing input: in [mixed_batch] the eigenvalue 1 of the
    batch element (0, 0) is -2, not zero, and the claim evolves it by the
    exponential branch; the solver evolves it by the linear branch,
    because [np.delete] and [np.insert] move mode 1 for the whole batch
    once eigenvalue 1 of the batch element (1, 1) is exactly zero.  With
    [td_n0 = [0, 1]], [source = [0, 2]] and [td_t = [1]] the solver
    returns the population 3 for state 1, where the claim's formula gives
    1. *)
Theorem source_linear_branch_on_nonzero_eigenvalue :
  let M := mixed_batch in
  let vals := eig_diag_vals (transpose_raw [2; 3; 0; 1] M) in
  let vecs := eig_diag_vecs (transpose_raw [2; 3; 0; 1] M) in
  exists td_pop e1 e2,
    solve_matrix_exponential_source eig_diag inv_id M
                                    [0%R; 1%R] [0%R; 2%R] [1%R]
    = Ok (td_pop, e1, e2)
    /\ data td_pop [1; 0; 0; 0] = 3%R
    /\ ksum 2 (fun j =>
         kmul (data vecs [0; 0; 1; j])
              (spec_mode_value vals vecs 2 [0%R; 1%R] [0%R; 2%R] [1%R] 0 0 j 0))
       = 1%R
    /\ data td_pop [1; 0; 0; 0]
       <> ksum 2 (fun j =>
            kmul (data vecs [0; 0; 1; j])
                 (spec_mode_value vals vecs 2 [0%R; 1%R] [0%R; 2%R] [1%R]
                                  0 0 j 0)).
Proof.
  intros M vals vecs.
  assert (He : eig_returns eig_diag (transpose_raw [2; 3; 0; 1] M)
                           vals vecs [2; 2] 2) by (repeat split).
  assert (Hi : inv_returns inv_id vecs vecs [2; 2] 2) by (repeat split).
  assert (Hw : np_where_zero vals = [[1; 1; 1]]) by exact mixed_batch_where.
  destruct (source_clean_run eig_diag inv_id M [0%R; 1%R] [0%R; 2%R] [1%R]
              eq_refl eq_refl eq_refl He Hi
              (or_intror (ex_intro _ 1 Hw))) as (pop & Hrun & _ & Hd).
  exists pop, vals, vecs. split; [exact Hrun|].
  assert (H3 : data pop [1; 0; 0; 0] = 3%R).
  { rewrite Hd by (simpl; lia). rewrite Hw.
    unfold batch_mode_value, is_zero_mode, mode_lin, mode_exp, project.
    simpl. lra. }
  assert (H1 : ksum 2 (fun j =>
                 kmul (data vecs [0; 0; 1; j])
                      (spec_mode_value vals vecs 2 [0%R; 1%R] [0%R; 2%R] [1%R]
                                       0 0 j 0)) = 1%R).
  { unfold spec_mode_value, mode_lin, mode_exp, project.
    simpl. decide_zeros. }
  split; [exact H3|]. split; [exact H1|].
  rewrite H3, H1. lra.
Qed.

(** C5, at the failing input: on [mixed_batch] with [td_n0 = [0, 1]],
    [td_t = [1]] and an all-zero source, the claim has the source solver
    reproduce [solve_matrix_exponential], which lets state 1 of the batch
    element (0, 0) decay to [exp(-2)]; the source solver keeps it at its
    initial population 1. *)
Theorem zero_source_differs_from_plain :
  exists pop_source pop_plain e1 e2 e1' e2',
    solve_matrix_exponential_source eig_diag inv_id mixed_batch
                                    [0%R; 1%R] (repeat kzero 2) [1%R]
    = Ok (pop_source, e1, e2)
    /\ solve_matrix_exponential eig_diag inv_id mixed_batch [0%R; 1%R] [1%R]
       = Ok (pop_plain, e1', e2')
    /\ data pop_source [1; 0; 0; 0] = 1%R
    /\ data pop_plain [1; 0; 0; 0] = exp (-2 * 1)
    /\ data pop_source [1; 0; 0; 0] <> data pop_plain [1; 0; 0; 0].
Proof.
  set (M := mixed_batch).
  set (vals := eig_diag_vals (transpose_raw [2; 3; 0; 1] M)).
  set (vecs := eig_diag_vecs (transpose_raw [2; 3; 0; 1] M)).
  assert (He : eig_returns eig_diag (transpose_raw [2; 3; 0; 1] M)
                           vals vecs [2; 2] 2) by (repeat split).
  assert (Hi : inv_returns inv_id vecs vecs [2; 2] 2) by (repeat split).
  assert (Hw : np_where_zero vals = [[1; 1; 1]]) by exact mixed_batch_where.
  destruct (source_clean_run eig_diag inv_id M [0%R; 1%R] (repeat kzero 2) [1%R]
              eq_refl eq_refl eq_refl He Hi
              (or_intror (ex_intro _ 1 Hw))) as (ps & Hrs & _ & Hds).
  destruct (time_dependent_run eig_diag inv_id M [0%R; 1%R] [1%R]
              eq_refl eq_refl He Hi) as (pp & Hrp & _ & Hdp).
  exists ps, pp, vals, vecs, (transpose_raw [2; 0; 1] vals),
    (transpose_raw [2; 3; 0; 1] vecs).
  split; [exact Hrs|]. split; [exact Hrp|].
  assert (Hs1 : data ps [1; 0; 0; 0] = 1%R).
  { rewrite Hds by (simpl; lia). rewrite Hw.
    unfold batch_mode_value, is_zero_mode, mode_lin, mode_exp, project.
    simpl. lra. }
  assert (Hp1 : data pp [1; 0; 0; 0] = exp (-2 * 1)).
  { rewrite Hdp by (simpl; lia). unfold project. simpl. lra. }
  split; [exact Hs1|]. split; [exact Hp1|].
  rewrite Hs1, Hp1.
  assert (He2 := exp_neg_lt_1 (-2 * 1)%R ltac:(lra)).
  lra.
Qed.

(** C7, as stated, fails: for [diag(-2, -1)] the steady-state solver
    returns the eigenvalues -2, -1 in the eigensolver's order, which is
    not ascending in absolute value. *)
Lemma steady_state_ordering_counterexample :
  exists ss_pop eigenvals eigenvectors,
    solve_matrix_exponential_steady_state eig_diag inv_id (diag2 (-2) (-1))
    = Ok (ss_pop, eigenvals, eigenvectors)
    /\ data eigenvals [0; 0; 0] = (-2)%R
    /\ data eigenvals [0; 0; 1] = (-1)%R
    /\ abs_leb (data eigenvals [0; 0; 0]) (data eigenvals [0; 0; 1]) = false.
Proof.
  set (M := diag2 (-2) (-1)).
  set (vals := eig_diag_vals (transpose_raw [2; 3; 0; 1] M)).
  set (vecs := eig_diag_vecs (transpose_raw [2; 3; 0; 1] M)).
  assert (He : eig_returns eig_diag (transpose_raw [2; 3; 0; 1] M)
                           vals vecs [1; 1] 2) by (repeat split).
  assert (Hi : inv_returns inv_id vecs vecs [1; 1] 2) by (repeat split).
  destruct (steady_state_run4 eig_diag inv_id M
              eq_refl (Nat.lt_0_succ 1) He Hi) as (ss & Hrun & _).
  exists ss, vals, vecs. split; [exact Hrun|].
  split; [reflexivity|]. split; [reflexivity|].
  simpl. destruct (Rle_dec (Rabs (-2)) (Rabs (-1))) as [H|H]; [|reflexivity].
  exfalso. rewrite !Rabs_left in H by lra. lra.
Qed.

Lemma one_state_batch_where :
  np_where_zero (eig_diag_vals (transpose_raw [2; 3; 0; 1] one_state_batch))
  = [].
Proof. unfold np_where_zero. simpl. decide_zeros. reflexivity. Qed.

(** C6, at the failing input: for a batch of shape [1, 1, 2, 1] (S = 1,
    k = 2, l = 1) the steady-state solver and the source solver return
    the eigenvalues with shape [2, 1, 1] and the eigenvectors with shape
    [2, 1, 1, 1], batch dimensions first, as the eigensolver produced
    them; only [solve_matrix_exponential] transposes them back, to
    [1, 2, 1] and [1, 1, 2, 1]. *)
Theorem eigen_layout_not_restored :
  exists ss s1 s2 ps p1 p2 pt t1 t2,
    solve_matrix_exponential_steady_state eig_diag inv_id one_state_batch
    = Ok (ss, s1, s2)
    /\ shape s1 = [2; 1; 1] /\ shape s2 = [2; 1; 1; 1]
    /\ solve_matrix_exponential_source eig_diag inv_id one_state_batch
                                       [1%R] [0%R] [0%R]
       = Ok (ps, p1, p2)
    /\ shape p1 = [2; 1; 1] /\ shape p2 = [2; 1; 1; 1]
    /\ solve_matrix_exponential eig_diag inv_id one_state_batch [1%R] [0%R]
       = Ok (pt, t1, t2)
    /\ shape t1 = [1; 2; 1] /\ shape t2 = [1; 1; 2; 1].
Proof.
  set (M := one_state_batch).
  set (vals := eig_diag_vals (transpose_raw [2; 3; 0; 1] M)).
  set (vecs := eig_diag_vecs (transpose_raw [2; 3; 0; 1] M)).
  assert (He : eig_returns eig_diag (transpose_raw [2; 3; 0; 1] M)
                           vals vecs [2; 1] 1) by (repeat split).
  assert (Hi : inv_returns inv_id vecs vecs [2; 1] 1) by (repeat split).
  destruct (steady_state_run4 eig_diag inv_id M
              eq_refl (Nat.lt_0_succ 0) He Hi) as (ss & Hrs & _).
  destruct (source_clean_run eig_diag inv_id M [1%R] [0%R] [0%R]
              eq_refl eq_refl eq_refl He Hi
              (or_introl one_state_batch_where)) as (ps & Hrp & _).
  destruct (time_dependent_run eig_diag inv_id M [1%R] [0%R]
              eq_refl eq_refl He Hi) as (pt & Hrt & _).
  exists ss, vals, vecs, ps, vals, vecs, pt,
    (transpose_raw [2; 0; 1] vals), (transpose_raw [2; 3; 0; 1] vecs).
  repeat split; assumption.
Qed.

(* ================================================================= *)
(** * Further properties of the solvers *)

Section Further.

Context {K : Type} {ops : NumOps K} {laws : NumLaws K}.
Variable eig : ndarray K -> result (ndarray K * ndarray K).
Variable inv : ndarray K -> result (ndarray K).

Add Ring Kring' : (@num_ring K ops laws).

(** The time-dependent solver hands the eigendecomposition back in the
    layout of the rate matrix: eigenvalues [S,k,l] and eigenvectors
    [S,S,k,l], entry by entry those of the eigensolver with the batch
    axes moved last (lines 36-37). *)
Theorem time_dependent_eigen_layout
        (M : ndarray K) (td_n0 td_t : list K) (S k l : nat)
        (vals vecs W : ndarray K) :
  shape M = [S; S; k; l] ->
  length td_n0 = S ->
  eig_returns eig (transpose_raw [2; 3; 0; 1] M) vals vecs [k; l] S ->
  inv_returns inv vecs W [k; l] S ->
  exists td_pop eigenvals eigenvectors,
    solve_matrix_exponential eig inv M td_n0 td_t
    = Ok (td_pop, eigenvals, eigenvectors)
    /\ shape eigenvals = [S; k; l]
    /\ shape eigenvectors = [S; S; k; l]
    /\ (forall j a b, data eigenvals [j; a; b] = data vals [a; b; j])
    /\ (forall i j a b, data eigenvectors [i; j; a; b] = data vecs [a; b; i; j]).
Proof.
  intros HM Hn He Hi.
  destruct (time_dependent_run eig inv M td_n0 td_t HM Hn He Hi)
    as (pop & Hrun & _).
  destruct He as (_ & Hvals & Hvecs). simpl in Hvals, Hvecs.
  exists pop, (transpose_raw [2; 0; 1] vals), (transpose_raw [2; 3; 0; 1] vecs).
  split; [exact Hrun|].
  unfold transpose_raw. simpl. rewrite Hvals, Hvecs. simpl.
  repeat split.
Qed.

(** The time-dependent and the source solver accept rank 4 only: for any
    other rank [matrix.transpose(2,3,0,1)] raises ValueError before the
    eigensolver is called (lines 31 and 118). *)
Theorem time_solvers_need_rank_4 (M : ndarray K) (td_n0 source td_t : list K) :
  ndim M <> 4 ->
  solve_matrix_exponential eig inv M td_n0 td_t = Raise ValueError
  /\ solve_matrix_exponential_source eig inv M td_n0 source td_t
     = Raise ValueError.
Proof.
  intros H4.
  assert (Hax : is_axes [2; 3; 0; 1] (ndim M) = false).
  { unfold is_axes. cbn [length].
    rewrite (proj2 (Nat.eqb_neq 4 (ndim M))) by lia. reflexivity. }
  unfold solve_matrix_exponential_source, source_modes,
    solve_matrix_exponential, transpose.
  rewrite Hax. split; reflexivity.
Qed.

(** With no state (an empty first axis, or no axis at all) the
    steady-state solver raises IndexError while building [td_n0]
    (lines 63-64), whatever the rank. *)
Theorem steady_state_no_state (M : ndarray K) :
  hd 0 (shape M) = 0 ->
  solve_matrix_exponential_steady_state eig inv M = Raise IndexError.
Proof.
  intros H0. unfold solve_matrix_exponential_steady_state, unit_n0.
  destruct (shape M) as [|n r]; [reflexivity|].
  simpl in H0. subst n. reflexivity.
Qed.

(** A failure of the eigensolver, or of the inversion of the eigenvector
    matrices (a singular eigenvector matrix), is raised unchanged by each
    of the three entry points: nothing is caught and no partial result is
    returned. *)
Theorem library_failure_propagates
        (M : ndarray K) (td_n0 source td_t : list K) (S k l : nat) (e : pyerror) :
  shape M = [S; S; k; l] ->
  0 < S ->
  eig (transpose_raw [2; 3; 0; 1] M) = Raise e
  \/ (exists vals vecs,
        eig (transpose_raw [2; 3; 0; 1] M) = Ok (vals, vecs)
        /\ inv vecs = Raise e) ->
  solve_matrix_exponential eig inv M td_n0 td_t = Raise e
  /\ solve_matrix_exponential_steady_state eig inv M = Raise e
  /\ solve_matrix_exponential_source eig inv M td_n0 source td_t = Raise e.
Proof.
  intros HM HS Hfail.
  unfold solve_matrix_exponential_source, source_modes,
    solve_matrix_exponential, solve_matrix_exponential_steady_state,
    unit_n0, transpose, ndim.
  rewrite HM. destruct S as [|n]; [lia|]. simpl.
  destruct Hfail as [He|(vals & vecs & He & Hi)]; rewrite He; simpl.
  - repeat split.
  - rewrite Hi. simpl. repeat split.
Qed.

(** An initial vector whose length is not the number of states makes
    [np.dot] raise ValueError in both time-dependent solvers (lines 32,
    120, 121). *)
Theorem initial_vector_length_mismatch
        (M : ndarray K) (td_n0 source td_t : list K) (S k l : nat)
        (vals vecs W : ndarray K) :
  shape M = [S; S; k; l] ->
  eig_returns eig (transpose_raw [2; 3; 0; 1] M) vals vecs [k; l] S ->
  inv_returns inv vecs W [k; l] S ->
  length td_n0 <> S ->
  solve_matrix_exponential eig inv M td_n0 td_t = Raise ValueError
  /\ solve_matrix_exponential_source eig inv M td_n0 source td_t
     = Raise ValueError.
Proof.
  intros HM (Heig & Hvals & Hvecs) (Hinv & HW) Hn.
  destruct vals as [sv dv], vecs as [se de], W as [sw dw].
  simpl in Hvals, Hvecs, HW. subst sv se sw.
  unfold solve_matrix_exponential_source, source_modes,
    solve_matrix_exponential, transpose, ndim.
  rewrite HM. simpl. rewrite Heig. simpl. rewrite Hinv. simpl.
  unfold np_dot. simpl.
  rewrite (proj2 (Nat.eqb_neq S (length td_n0))) by lia.
  split; [reflexivity|].
  destruct (S =? length source); reflexivity.
Qed.

(** Whenever the source solver returns, the eigenvalue and eigenvector
    arrays it returns are the eigensolver's own, batch dimensions first
    ([k,l,S] and [k,l,S,S]): line 134 returns them without the transposes
    of lines 36-37. *)
Theorem source_returns_eig_output
        (M : ndarray K) (td_n0 source td_t : list K) (S k l : nat)
        (vals vecs W td_pop e1 e2 : ndarray K) :
  shape M = [S; S; k; l] ->
  length td_n0 = S ->
  length source = S ->
  eig_returns eig (transpose_raw [2; 3; 0; 1] M) vals vecs [k; l] S ->
  inv_returns inv vecs W [k; l] S ->
  solve_matrix_exponential_source eig inv M td_n0 source td_t
  = Ok (td_pop, e1, e2) ->
  e1 = vals /\ e2 = vecs /\ shape e1 = [k; l; S] /\ shape e2 = [k; l; S; S].
Proof.
  intros HM Hn Hs He Hi Hok.
  set (w := np_where_zero vals).
  assert (Hsh := proj2 He). simpl in Hsh.
  unfold solve_matrix_exponential_source in Hok.
  destruct (existsb (fun x => S <=? x) (concat w)) eqn:Hdel.
  { rewrite (source_modes_raises eig inv M td_n0 source td_t HM Hn Hs He Hi)
      in Hok; [discriminate|now left]. }
  destruct (existsb (fun x => length (kept_modes w S) <? x) (coord 2 w)) eqn:Hins.
  { rewrite (source_modes_raises eig inv M td_n0 source td_t HM Hn Hs He Hi)
      in Hok; [discriminate|now right]. }
  destruct (source_modes_run eig inv M td_n0 source td_t HM Hn Hs He Hi Hdel Hins)
    as (v & Hrun & _).
  rewrite Hrun in Hok. simpl in Hok.
  destruct (einsum_klij_kljt_itkl vecs v); simpl in Hok; [|discriminate].
  injection Hok as _ <- <-. tauto.
Qed.

(** The projection of the synthetic initial vector (1 in state 0) is
    column 0 of the inverse eigenvector matrix. *)
Lemma project_unit (W : ndarray K) (S : nat) (pre : list nat) (m : nat) :
  0 < S ->
  project W S (kone :: repeat kzero (S - 1)) pre m = data W (pre ++ [m; 0]).
Proof.
  intros HS. unfold project.
  rewrite (ksum_ext S _
             (fun c => kmul (if 0 =? c then kone else kzero)
                            (data W (pre ++ [m; c])))).
  - exact (ksum_delta S 0 (fun c => data W (pre ++ [m; c])) HS).
  - intros c _. destruct c as [|c]; simpl; [ring|].
    rewrite nth_repeat. ring.
Qed.

(** The scale of the steady-state vector: in each batch element [ss_pop]
    is the selected eigenvector times the entry (mode, 0) of the inverse
    eigenvector matrix, so it depends on the choice of state 0 as the
    synthetic initial state (lines 63-64, 77, 84). *)
Theorem steady_state_scale
        (M : ndarray K) (S k l : nat) (vals vecs W : ndarray K) :
  shape M = [S; S; k; l] ->
  0 < S ->
  eig_returns eig (transpose_raw [2; 3; 0; 1] M) vals vecs [k; l] S ->
  inv_returns inv vecs W [k; l] S ->
  exists ss_pop,
    solve_matrix_exponential_steady_state eig inv M = Ok (ss_pop, vals, vecs)
    /\ forall i a b, i < S -> a < k -> b < l ->
         let m := nth 0 (argsort_list (eig_row vals [a; b] S)) 0 in
         data ss_pop [i; a; b]
         = kmul (data W [a; b; m; 0]) (data vecs [a; b; i; m]).
Proof.
  intros HM HS He Hi.
  destruct (steady_state_run4 eig inv M HM HS He Hi) as (ss & Hrun & _ & Hd).
  exists ss. split; [exact Hrun|].
  intros i a b Hi' Ha Hb m. unfold m. rewrite Hd by assumption.
  now rewrite project_unit.
Qed.

(** The steady-state vector is an eigenvector of the rate matrix for the
    selected eigenvalue: [M . ss_pop = eigenvalue * ss_pop] in every batch
    element.  When that eigenvalue is exactly zero, [M . ss_pop = 0]: the
    returned populations are an equilibrium. *)
Theorem steady_state_is_eigenvector
        (M : ndarray K) (S k l : nat) (vals vecs W : ndarray K) :
  shape M = [S; S; k; l] ->
  0 < S ->
  eig_returns eig (transpose_raw [2; 3; 0; 1] M) vals vecs [k; l] S ->
  inv_returns inv vecs W [k; l] S ->
  is_eigen (transpose_raw [2; 3; 0; 1] M) vals vecs k l S ->
  exists ss_pop,
    solve_matrix_exponential_steady_state eig inv M = Ok (ss_pop, vals, vecs)
    /\ forall a b, a < k -> b < l ->
         let m := nth 0 (argsort_list (eig_row vals [a; b] S)) 0 in
         (forall i, i < S ->
            ksum S (fun c => kmul (data M [i; c; a; b]) (data ss_pop [c; a; b]))
            = kmul (data vals [a; b; m]) (data ss_pop [i; a; b]))
         /\ (data vals [a; b; m] = kzero ->
             forall i, i < S ->
               ksum S (fun c => kmul (data M [i; c; a; b]) (data ss_pop [c; a; b]))
               = kzero).
Proof.
  intros HM HS He Hi HE.
  destruct (steady_state_run4 eig inv M HM HS He Hi) as (ss & Hrun & _ & Hd).
  exists ss. split; [exact Hrun|].
  intros a b Ha Hb m.
  destruct (selected_mode_smallest vals [a; b] HS) as [Hm _]. fold m in Hm.
  assert (Heq : forall i, i < S ->
            ksum S (fun c => kmul (data M [i; c; a; b]) (data ss [c; a; b]))
            = kmul (data vals [a; b; m]) (data ss [i; a; b])).
  { intros i Hi'.
    rewrite (ksum_ext S _
               (fun c => kmul (project W S (kone :: repeat kzero (S - 1)) [a; b] m)
                              (kmul (data M [i; c; a; b]) (data vecs [a; b; c; m])))).
    2:{ intros c Hc. rewrite (Hd c a b Hc Ha Hb). fold m. ring. }
    rewrite ksum_mul_l.
    specialize (HE a b i m Ha Hb Hi' Hm). simpl in HE. rewrite HE.
    rewrite (Hd i a b Hi' Ha Hb). fold m. ring. }
  split; [exact Heq|].
  intros Hz i Hi'. rewrite Heq by exact Hi'. rewrite Hz. ring.
Qed.


(** Both branches of the source solver start from the projected initial
    amplitude. *)
Lemma mode_value_at_zero w (vals W : ndarray K) S n0 src tt a b j t :
  nth t tt kzero = kzero ->
  batch_mode_value w vals W S n0 src tt a b j t = project W S n0 [a; b] j.
Proof.
  intros Ht. unfold batch_mode_value, mode_lin, mode_exp. rewrite Ht.
  replace (kmul (data vals [a; b; j]) kzero) with kzero by ring.
  rewrite num_exp0. destruct (is_zero_mode w j); ring.
Qed.

(** Initial-condition recovery for the source solver: on inputs without
    exact zero, or with a single one whose batch indices equal its mode
    index, the population returned at a grid time equal to 0 is [td_n0],
    whatever the source. *)
Theorem source_initial_condition_recovery
        (M : ndarray K) (td_n0 source td_t : list K) (S k l : nat)
        (vals vecs W : ndarray K) (t : nat) :
  shape M = [S; S; k; l] ->
  length td_n0 = S ->
  length source = S ->
  eig_returns eig (transpose_raw [2; 3; 0; 1] M) vals vecs [k; l] S ->
  inv_returns inv vecs W [k; l] S ->
  is_inverse vecs W k l S ->
  clean_zeros (np_where_zero vals) ->
  t < length td_t ->
  nth t td_t kzero = kzero ->
  exists td_pop,
    solve_matrix_exponential_source eig inv M td_n0 source td_t
    = Ok (td_pop, vals, vecs)
    /\ forall i a b, i < S -> a < k -> b < l ->
         data td_pop [i; t; a; b] = nth i td_n0 kzero.
Proof.
  intros HM Hn Hs He Hi HI Hc Ht Ht0.
  destruct (source_clean_run eig inv M td_n0 source td_t HM Hn Hs He Hi Hc)
    as (pop & Hrun & _ & Hd).
  exists pop. split; [exact Hrun|].
  intros i a b Hi' Ha Hb. rewrite Hd by assumption.
  rewrite <- (reconstruct_projection td_n0 HI Ha Hb Hi').
  apply ksum_ext. intros j _. now rewrite mode_value_at_zero.
Qed.


(** Superposition: the populations of the time-dependent solver are
    linear in the initial vector. *)
Theorem time_dependent_superposition
        (M : ndarray K) (n0 n1 n2 td_t : list K) (c0 c1 : K) (S k l : nat)
        (vals vecs W : ndarray K) :
  shape M = [S; S; k; l] ->
  length n0 = S -> length n1 = S -> length n2 = S ->
  eig_returns eig (transpose_raw [2; 3; 0; 1] M) vals vecs [k; l] S ->
  inv_returns inv vecs W [k; l] S ->
  (forall m, m < S ->
     nth m n2 kzero = kadd (kmul c0 (nth m n0 kzero)) (kmul c1 (nth m n1 kzero))) ->
  exists p0 p1 p2 e1 e2,
    solve_matrix_exponential eig inv M n0 td_t = Ok (p0, e1, e2)
    /\ solve_matrix_exponential eig inv M n1 td_t = Ok (p1, e1, e2)
    /\ solve_matrix_exponential eig inv M n2 td_t = Ok (p2, e1, e2)
    /\ forall i t a b, i < S -> t < length td_t -> a < k -> b < l ->
         data p2 [i; t; a; b]
         = kadd (kmul c0 (data p0 [i; t; a; b])) (kmul c1 (data p1 [i; t; a; b])).
Proof.
  intros HM H0 H1 H2 He Hi Hlin.
  destruct (time_dependent_run eig inv M n0 td_t HM H0 He Hi) as (p0 & Hr0 & _ & Hd0).
  destruct (time_dependent_run eig inv M n1 td_t HM H1 He Hi) as (p1 & Hr1 & _ & Hd1).
  destruct (time_dependent_run eig inv M n2 td_t HM H2 He Hi) as (p2 & Hr2 & _ & Hd2).
  exists p0, p1, p2, (transpose_raw [2; 0; 1] vals),
    (transpose_raw [2; 3; 0; 1] vecs).
  split; [exact Hr0|]. split; [exact Hr1|]. split; [exact Hr2|].
  intros i t a b Hi' Ht Ha Hb.
  rewrite Hd0, Hd1, Hd2 by assumption.
  rewrite <- !ksum_mul_l, <- ksum_add. apply ksum_ext. intros j Hj.
  assert (Hp : project W S n2 [a; b] j
               = kadd (kmul c0 (project W S n0 [a; b] j))
                      (kmul c1 (project W S n1 [a; b] j))).
  { unfold project. rewrite <- !ksum_mul_l, <- ksum_add.
    apply ksum_ext. intros m Hm. rewrite Hlin by exact Hm. ring. }
  rewrite Hp. ring.
Qed.

Lemma state_vector_nth (X : ndarray K) pre S i :
  i < S -> nth i (state_vector X pre S) kzero = data X (i :: pre).
Proof. intros Hi. unfold state_vector. now rewrite nth_map_seq. Qed.

(** The two entry points composed: for a single matrix whose eigenvalue
    of smallest absolute value is exactly zero, the steady-state
    populations, handed to the time-dependent solver as initial vector,
    are returned unchanged at every requested time. *)
Theorem steady_state_is_stationary
        (M : ndarray K) (td_t : list K) (S : nat) (vals vecs W : ndarray K) :
  shape M = [S; S; 1; 1] ->
  0 < S ->
  eig_returns eig (transpose_raw [2; 3; 0; 1] M) vals vecs [1; 1] S ->
  inv_returns inv vecs W [1; 1] S ->
  is_left_inverse vecs W 1 1 S ->
  data vals [0; 0; nth 0 (argsort_list (eig_row vals [0; 0] S)) 0] = kzero ->
  exists ss_pop e1 e2 td_pop e1' e2',
    solve_matrix_exponential_steady_state eig inv M = Ok (ss_pop, e1, e2)
    /\ solve_matrix_exponential eig inv M (state_vector ss_pop [0; 0] S) td_t
       = Ok (td_pop, e1', e2')
    /\ forall i t, i < S -> t < length td_t ->
         data td_pop [i; t; 0; 0] = data ss_pop [i; 0; 0].
Proof.
  intros HM HS He Hi HL Hz.
  set (m := nth 0 (argsort_list (eig_row vals [0; 0] S)) 0) in *.
  destruct (selected_mode_smallest vals [0; 0] HS) as [Hm _]. fold m in Hm.
  destruct (steady_state_run4 eig inv M HM HS He Hi) as (ss & Hrs & _ & Hds).
  assert (Hlen : length (state_vector ss [0; 0] S) = S).
  { unfold state_vector. now rewrite length_map, length_seq. }
  destruct (time_dependent_run eig inv M (state_vector ss [0; 0] S) td_t
              HM Hlen He Hi) as (pop & Hrp & _ & Hdp).
  exists ss, vals, vecs, pop, (transpose_raw [2; 0; 1] vals),
    (transpose_raw [2; 3; 0; 1] vecs).
  split; [exact Hrs|]. split; [exact Hrp|].
  intros i t Hi' Ht.
  rewrite Hdp by (assumption || lia).
  set (p := project W S (kone :: repeat kzero (S - 1)) [0; 0] m).
  assert (Hss : forall c, c < S -> data ss [c; 0; 0] = kmul p (data vecs [0; 0; c; m])).
  { intros c Hc. rewrite (Hds c 0 0 Hc Nat.lt_0_1 Nat.lt_0_1). reflexivity. }
  assert (Hproj : forall j, j < S ->
            project W S (state_vector ss [0; 0] S) [0; 0] j
            = kmul p (if m =? j then kone else kzero)).
  { intros j Hj. unfold project. simpl.
    rewrite (ksum_ext S _
               (fun c => kmul p (kmul (data W [0; 0; j; c])
                                      (data vecs [0; 0; c; m])))).
    2:{ intros c Hc. rewrite state_vector_nth by exact Hc.
        rewrite Hss by exact Hc. ring. }
    rewrite ksum_mul_l, (HL 0 0 j m Nat.lt_0_1 Nat.lt_0_1 Hj Hm).
    now rewrite Nat.eqb_sym. }
  rewrite (ksum_ext S _
             (fun j => kmul (if m =? j then kone else kzero)
                (kmul (data vecs [0; 0; i; j])
                      (kmul p (kexp (kmul (data vals [0; 0; j])
                                          (nth t td_t kzero))))))).
  2:{ intros j Hj. rewrite Hproj by exact Hj. ring. }
  rewrite (ksum_delta S m _ Hm). rewrite Hz.
  replace (kmul kzero (nth t td_t kzero)) with kzero by ring.
  rewrite num_exp0, Hss by exact Hi'. ring.
Qed.

(** With the single zero [(0, 0, j)], [j > 0], [np.delete] removes the
    modes 0 and [j]: the batch indices are read as mode indices. *)
Lemma kept_modes_batch_index j S :
  0 < j -> j < S ->
  kept_modes [[0; 0; j]] S = seq 1 (j - 1) ++ seq (Datatypes.S j) (S - j - 1).
Proof.
  intros H0 Hj. destruct j as [|j']; [lia|].
  unfold kept_modes. cbn [concat app].
  replace (Datatypes.S j' - 1) with j' by lia.
  set (f := fun x => negb (existsb (Nat.eqb x) [0; 0; Datatypes.S j'])).
  assert (Hkeep : forall x, x <> 0 -> x <> Datatypes.S j' -> f x = true).
  { intros x Hx0 Hxj. unfold f. simpl.
    replace (x =? 0) with false by (symmetry; apply Nat.eqb_neq; lia).
    replace (x =? Datatypes.S j') with false
      by (symmetry; apply Nat.eqb_neq; lia).
    reflexivity. }
  assert (Hf0 : f 0 = false) by reflexivity.
  assert (Hfj : f (Datatypes.S j') = false).
  { unfold f. simpl. rewrite Nat.eqb_refl. reflexivity. }
  replace S with (1 + (j' + Datatypes.S (S - Datatypes.S j' - 1))) at 1 by lia.
  rewrite seq_app, filter_app. cbn [seq filter]. rewrite Hf0. cbn [app].
  rewrite seq_app, filter_app. cbn [seq filter Nat.add]. rewrite Hfj.
  rewrite !filter_all; [reflexivity| |].
  - intros x Hx. apply in_seq in Hx. apply Hkeep; lia.
  - intros x Hx. apply in_seq in Hx. apply Hkeep; lia.
Qed.

(** A single matrix whose only exactly-zero eigenvalue is not eigenvalue
    0 makes the source solver raise: [np.delete] is handed the batch
    coordinates of the zero as well (line 124) and removes mode 0 too, so
    [np.insert] is out of bounds (IndexError, zero in the last mode) or
    the mode axis comes out one short for the contraction (ValueError). *)
Theorem source_fails_on_later_zero
        (M : ndarray K) (td_n0 source td_t : list K) (S j : nat)
        (vals vecs W : ndarray K) :
  shape M = [S; S; 1; 1] ->
  length td_n0 = S ->
  length source = S ->
  eig_returns eig (transpose_raw [2; 3; 0; 1] M) vals vecs [1; 1] S ->
  inv_returns inv vecs W [1; 1] S ->
  np_where_zero vals = [[0; 0; j]] ->
  0 < j ->
  solve_matrix_exponential_source eig inv M td_n0 source td_t
  = Raise (if j =? S - 1 then IndexError else ValueError).
Proof.
  intros HM Hn Hs He Hi Hw H0.
  assert (Hj : j < S).
  { apply (where_coord2_lt vals 1 1 S j (proj1 (proj2 He))).
    rewrite Hw. now left. }
  assert (Hk : length (kept_modes (np_where_zero vals) S) = S - 2).
  { rewrite Hw, kept_modes_batch_index by assumption.
    rewrite length_app, !length_seq. lia. }
  unfold solve_matrix_exponential_source.
  destruct (j =? S - 1) eqn:Ej.
  - apply Nat.eqb_eq in Ej.
    rewrite (source_modes_raises eig inv M td_n0 source td_t HM Hn Hs He Hi);
      [reflexivity|].
    right. rewrite Hk, Hw. simpl.
    replace (S - 2 <? j) with true by (symmetry; apply Nat.ltb_lt; lia).
    reflexivity.
  - apply Nat.eqb_neq in Ej.
    assert (Hdel : existsb (fun x => S <=? x) (concat (np_where_zero vals)) = false).
    { rewrite Hw. simpl.
      replace (S <=? 0) with false by (symmetry; apply Nat.leb_gt; lia).
      replace (S <=? j) with false by (symmetry; apply Nat.leb_gt; lia).
      reflexivity. }
    assert (Hins : existsb (fun x => length (kept_modes (np_where_zero vals) S) <? x)
                           (coord 2 (np_where_zero vals)) = false).
    { rewrite Hk, Hw. simpl.
      replace (S - 2 <? j) with false by (symmetry; apply Nat.ltb_ge; lia).
      reflexivity. }
    destruct (source_modes_run eig inv M td_n0 source td_t HM Hn Hs He Hi Hdel Hins)
      as (v & Hrun & Hsh & _).
    rewrite Hrun. simpl.
    rewrite Hk, Hw in Hsh. simpl in Hsh.
    destruct He as (_ & _ & Hvecs). simpl in Hvecs.
    unfold einsum_klij_kljt_itkl. rewrite Hvecs, Hsh.
    rewrite !bdim_refl. unfold bdim.
    replace (S =? S - 2 + 1) with false by (symmetry; apply Nat.eqb_neq; lia).
    replace (S =? 1) with false by (symmetry; apply Nat.eqb_neq; lia).
    replace (S - 2 + 1 =? 1) with false by (symmetry; apply Nat.eqb_neq; lia).
    reflexivity.
Qed.

End Further.

(** ** Concrete runs of the further properties *)

Lemma decay_is_left_inverse : is_left_inverse decay_vecs decay_inv_vecs 1 1 2.
Proof.
  intros a b j m Ha Hb Hj Hm.
  destruct j as [|[|j]], m as [|[|m]]; try lia; simpl; ring.
Qed.

Lemma diag_is_inverse (X : ndarray R) (k l : nat) :
  is_inverse (eig_diag_vecs X) (eig_diag_vecs X) k l 2.
Proof.
  intros a b i m Ha Hb Hi Hm.
  destruct i as [|[|i]], m as [|[|m]]; try lia; simpl; ring.
Qed.


Lemma zero_last_where :
  np_where_zero (eig_diag_vals (transpose_raw [2; 3; 0; 1] (diag2 (-1) 0)))
  = [[0; 0; 1]].
Proof. unfold np_where_zero. simpl. decide_zeros. reflexivity. Qed.

Lemma decay_selected_mode :
  nth 0 (argsort_list (eig_row decay_vals [0; 0] 2)) 0 = 1.
Proof.
  unfold argsort_list, eig_row. simpl.
  destruct (Rle_dec (Rabs (-1)) (Rabs 0)) as [H|H]; [|reflexivity].
  exfalso. rewrite Rabs_left, Rabs_R0 in H by lra. lra.
Qed.

Lemma time_dependent_eigen_layout_witness :
  exists td_pop eigenvals eigenvectors,
    solve_matrix_exponential decay_eig decay_inv decay_matrix
                             [1%R; 0%R] [0%R; 1%R]
    = Ok (td_pop, eigenvals, eigenvectors)
    /\ shape eigenvals = [2; 1; 1]
    /\ shape eigenvectors = [2; 2; 1; 1]
    /\ (forall j a b, data eigenvals [j; a; b] = data decay_vals [a; b; j])
    /\ (forall i j a b,
          data eigenvectors [i; j; a; b] = data decay_vecs [a; b; i; j]).
Proof.
  exact (time_dependent_eigen_layout decay_eig decay_inv decay_matrix
           [1%R; 0%R] [0%R; 1%R] 2 1 1 decay_vals decay_vecs decay_inv_vecs
           eq_refl eq_refl decay_eig_returns decay_inv_returns).
Defined.

Lemma time_solvers_need_rank_4_witness :
  solve_matrix_exponential eig_diag inv_id plain_matrix [1%R; 0%R] [0%R]
  = Raise ValueError
  /\ solve_matrix_exponential_source eig_diag inv_id plain_matrix
                                     [1%R; 0%R] [0%R; 0%R] [0%R]
     = Raise ValueError.
Proof.
  apply (time_solvers_need_rank_4 eig_diag inv_id plain_matrix
           [1%R; 0%R] [0%R; 0%R] [0%R]).
  unfold ndim, plain_matrix. simpl. lia.
Defined.

Lemma steady_state_no_state_witness :
  solve_matrix_exponential_steady_state eig_diag inv_id no_state_batch
  = Raise IndexError.
Proof.
  apply (steady_state_no_state eig_diag inv_id no_state_batch).
  reflexivity.
Defined.

Lemma library_failure_propagates_witness :
  solve_matrix_exponential decay_eig inv_singular decay_matrix
                           [1%R; 0%R] [0%R; 1%R]
  = Raise LinAlgError
  /\ solve_matrix_exponential_steady_state decay_eig inv_singular decay_matrix
     = Raise LinAlgError
  /\ solve_matrix_exponential_source decay_eig inv_singular decay_matrix
                                     [1%R; 0%R] [0%R; 0%R] [0%R; 1%R]
     = Raise LinAlgError.
Proof.
  apply (library_failure_propagates decay_eig inv_singular decay_matrix
           [1%R; 0%R] [0%R; 0%R] [0%R; 1%R] 2 1 1 LinAlgError).
  - reflexivity.
  - lia.
  - right. exists decay_vals, decay_vecs. split; reflexivity.
Defined.

Lemma initial_vector_length_mismatch_witness :
  solve_matrix_exponential decay_eig decay_inv decay_matrix [1%R] [0%R; 1%R]
  = Raise ValueError
  /\ solve_matrix_exponential_source decay_eig decay_inv decay_matrix
                                     [1%R] [0%R; 0%R] [0%R; 1%R]
     = Raise ValueError.
Proof.
  apply (initial_vector_length_mismatch decay_eig decay_inv decay_matrix
           [1%R] [0%R; 0%R] [0%R; 1%R] 2 1 1
           decay_vals decay_vecs decay_inv_vecs).
  - reflexivity.
  - exact decay_eig_returns.
  - exact decay_inv_returns.
  - simpl. lia.
Defined.

Lemma source_returns_eig_output_witness :
  let M := diag2 0 (-1) in
  let vals := eig_diag_vals (transpose_raw [2; 3; 0; 1] M) in
  let vecs := eig_diag_vecs (transpose_raw [2; 3; 0; 1] M) in
  exists td_pop e1 e2,
    solve_matrix_exponential_source eig_diag inv_id M
                                    [1%R; 1%R] [2%R; 3%R] [0%R; 1%R]
    = Ok (td_pop, e1, e2)
    /\ e1 = vals /\ e2 = vecs
    /\ shape e1 = [1; 1; 2] /\ shape e2 = [1; 1; 2; 2].
Proof.
  intros M vals vecs.
  assert (He : eig_returns eig_diag (transpose_raw [2; 3; 0; 1] M)
                           vals vecs [1; 1] 2) by (repeat split).
  assert (Hi : inv_returns inv_id vecs vecs [1; 1] 2) by (repeat split).
  destruct (source_clean_run eig_diag inv_id M [1%R; 1%R] [2%R; 3%R] [0%R; 1%R]
              eq_refl eq_refl eq_refl He Hi
              (or_intror (ex_intro _ 0 zero_first_where))) as (pop & Hrun & _).
  exists pop, vals, vecs. split; [exact Hrun|].
  exact (source_returns_eig_output eig_diag inv_id M
           [1%R; 1%R] [2%R; 3%R] [0%R; 1%R] 2 1 1 vals vecs vecs pop vals vecs
           eq_refl eq_refl eq_refl He Hi Hrun).
Defined.

Lemma steady_state_scale_witness :
  exists ss_pop,
    solve_matrix_exponential_steady_state decay_eig decay_inv decay_matrix
    = Ok (ss_pop, decay_vals, decay_vecs)
    /\ forall i a b, i < 2 -> a < 1 -> b < 1 ->
         let m := nth 0 (argsort_list (eig_row decay_vals [a; b] 2)) 0 in
         data ss_pop [i; a; b]
         = kmul (data decay_inv_vecs [a; b; m; 0]) (data decay_vecs [a; b; i; m]).
Proof.
  apply (steady_state_scale (laws := R_laws) decay_eig decay_inv decay_matrix
           2 1 1 decay_vals decay_vecs decay_inv_vecs).
  - reflexivity.
  - lia.
  - exact decay_eig_returns.
  - exact decay_inv_returns.
Defined.

Lemma steady_state_is_eigenvector_witness :
  exists ss_pop,
    solve_matrix_exponential_steady_state decay_eig decay_inv decay_matrix
    = Ok (ss_pop, decay_vals, decay_vecs)
    /\ forall a b, a < 1 -> b < 1 ->
         let m := nth 0 (argsort_list (eig_row decay_vals [a; b] 2)) 0 in
         (forall i, i < 2 ->
            ksum 2 (fun c => kmul (data decay_matrix [i; c; a; b])
                                  (data ss_pop [c; a; b]))
            = kmul (data decay_vals [a; b; m]) (data ss_pop [i; a; b]))
         /\ (data decay_vals [a; b; m] = kzero ->
             forall i, i < 2 ->
               ksum 2 (fun c => kmul (data decay_matrix [i; c; a; b])
                                     (data ss_pop [c; a; b]))
               = kzero).
Proof.
  apply (steady_state_is_eigenvector (laws := R_laws) decay_eig decay_inv
           decay_matrix 2 1 1 decay_vals decay_vecs decay_inv_vecs).
  - reflexivity.
  - lia.
  - exact decay_eig_returns.
  - exact decay_inv_returns.
  - exact decay_is_eigen.
Defined.

Lemma source_initial_condition_recovery_witness :
  let M := diag2 0 (-1) in
  let vals := eig_diag_vals (transpose_raw [2; 3; 0; 1] M) in
  let vecs := eig_diag_vecs (transpose_raw [2; 3; 0; 1] M) in
  exists td_pop,
    solve_matrix_exponential_source eig_diag inv_id M
                                    [1%R; 1%R] [2%R; 3%R] [0%R; 1%R]
    = Ok (td_pop, vals, vecs)
    /\ forall i a b, i < 2 -> a < 1 -> b < 1 ->
         data td_pop [i; 0; a; b] = nth i [1%R; 1%R] kzero.
Proof.
  intros M vals vecs.
  apply (source_initial_condition_recovery (laws := R_laws) eig_diag inv_id M
           [1%R; 1%R] [2%R; 3%R] [0%R; 1%R] 2 1 1 vals vecs vecs 0).
  - reflexivity.
  - reflexivity.
  - reflexivity.
  - repeat split.
  - repeat split.
  - apply diag_is_inverse.
  - right. exists 0. exact zero_first_where.
  - simpl. lia.
  - reflexivity.
Defined.


Lemma time_dependent_superposition_witness :
  exists p0 p1 p2 e1 e2,
    solve_matrix_exponential decay_eig decay_inv decay_matrix
                             [1%R; 0%R] [0%R; 1%R] = Ok (p0, e1, e2)
    /\ solve_matrix_exponential decay_eig decay_inv decay_matrix
                                [0%R; 1%R] [0%R; 1%R] = Ok (p1, e1, e2)
    /\ solve_matrix_exponential decay_eig decay_inv decay_matrix
                                [2%R; 3%R] [0%R; 1%R] = Ok (p2, e1, e2)
    /\ forall i t a b, i < 2 -> t < 2 -> a < 1 -> b < 1 ->
         data p2 [i; t; a; b]
         = kadd (kmul 2%R (data p0 [i; t; a; b]))
                (kmul 3%R (data p1 [i; t; a; b])).
Proof.
  apply (time_dependent_superposition (laws := R_laws) decay_eig decay_inv
           decay_matrix [1%R; 0%R] [0%R; 1%R] [2%R; 3%R] [0%R; 1%R]
           2%R 3%R 2 1 1 decay_vals decay_vecs decay_inv_vecs).
  - reflexivity.
  - reflexivity.
  - reflexivity.
  - reflexivity.
  - exact decay_eig_returns.
  - exact decay_inv_returns.
  - intros m Hm. destruct m as [|[|m]]; try lia; simpl; ring.
Defined.

Lemma steady_state_is_stationary_witness :
  exists ss_pop e1 e2 td_pop e1' e2',
    solve_matrix_exponential_steady_state decay_eig decay_inv decay_matrix
    = Ok (ss_pop, e1, e2)
    /\ solve_matrix_exponential decay_eig decay_inv decay_matrix
                                (state_vector ss_pop [0; 0] 2) [0%R; 1%R]
       = Ok (td_pop, e1', e2')
    /\ forall i t, i < 2 -> t < 2 ->
         data td_pop [i; t; 0; 0] = data ss_pop [i; 0; 0].
Proof.
  apply (steady_state_is_stationary (laws := R_laws) decay_eig decay_inv
           decay_matrix [0%R; 1%R] 2 decay_vals decay_vecs decay_inv_vecs).
  - reflexivity.
  - lia.
  - exact decay_eig_returns.
  - exact decay_inv_returns.
  - exact decay_is_left_inverse.
  - rewrite decay_selected_mode. reflexivity.
Defined.

Lemma source_fails_on_later_zero_witness :
  solve_matrix_exponential_source eig_diag inv_id (diag2 (-1) 0)
                                  [1%R; 1%R] [2%R; 3%R] [0%R; 1%R]
  = Raise IndexError.
Proof.
  apply (source_fails_on_later_zero eig_diag inv_id (diag2 (-1) 0)
           [1%R; 1%R] [2%R; 3%R] [0%R; 1%R] 2 1
           (eig_diag_vals (transpose_raw [2; 3; 0; 1] (diag2 (-1) 0)))
           (eig_diag_vecs (transpose_raw [2; 3; 0; 1] (diag2 (-1) 0)))
           (eig_diag_vecs (transpose_raw [2; 3; 0; 1] (diag2 (-1) 0)))).
  - reflexivity.
  - reflexivity.
  - reflexivity.
  - repeat split.
  - repeat split.
  - exact zero_last_where.
  - lia.
Defined.
